(** * Schema and object utilities (src/utils.ts)

    A shallow embedding of the utility functions of [src/utils.ts] and the
    proofs of their specification.

    - Functions that only compute on their arguments
      ([formatValidationError], [formatArray], [getParameterMap],
      [getParametersSchema], [transform], [oneOrMany], [inRange]) are
      embedded as functions on typed data, with TypeScript's interfaces as
      records and its unions as inductive types; the functions they are
      given are pure, and are applied to the arguments that the code passes
      them.
    - Functions whose contract speaks about effects, object identity and
      mutation ([resolve], [matchSchema] with [cloneObject], and
      [mapObject]) are embedded over an explicit heap of objects and
      arrays, in a state-and-exception monad.

    The runtime comes first (numbers, objects, JSON, the heap,
    [JSON.stringify] and [JSON.parse], the validation engine), then the
    functions in the order of the source file, then the proofs of the
    specification and further properties of the functions. *)

From Stdlib Require Import QArith Lqa.
From stdpp Require Import base option list strings pretty.

Set Warnings "-register-all".

(** ** Numbers

    A JavaScript number is an IEEE double.  Comparison of two finite doubles
    is comparison of the rationals they denote, so a finite number is
    modelled by its rational value ([+0] and [-0] compare equal and are both
    [Finite 0]). *)

Inductive number : Type :=
| NaN
| NegInfinity
| Finite (q : Q)
| PosInfinity.

Definition Qltb (p q : Q) : bool := negb (Qle_bool q p).

(** [Number::lessThan] of ECMAScript: [None] is the result [undefined] that
    a comparison with [NaN] gives. *)
Definition Number_lessThan (x y : number) : option bool :=
  match x, y with
  | NaN, _ => None
  | _, NaN => None
  | PosInfinity, _ => Some false
  | _, PosInfinity => Some true
  | _, NegInfinity => Some false
  | NegInfinity, _ => Some true
  | Finite p, Finite q => Some (Qltb p q)
  end.

(** [x < y]: an undefined comparison is [false]. *)
Definition js_lt (x y : number) : bool :=
  match Number_lessThan x y with
  | Some b => b
  | None => false
  end.

(** [x >= y]: [false] when [x < y] is true or undefined. *)
Definition js_ge (x y : number) : bool :=
  match Number_lessThan x y with
  | Some false => true
  | _ => false
  end.

(** The order of the extended rationals, in which [NaN] is related to
    nothing: what [min <= value] and [value < max] mean in the
    specification. *)
Inductive num_lt : number -> number -> Prop :=
| num_lt_finite p q : (p < q)%Q -> num_lt (Finite p) (Finite q)
| num_lt_below q : num_lt NegInfinity (Finite q)
| num_lt_above p : num_lt (Finite p) PosInfinity
| num_lt_ends : num_lt NegInfinity PosInfinity.

Inductive num_le : number -> number -> Prop :=
| num_le_finite p q : (p <= q)%Q -> num_le (Finite p) (Finite q)
| num_le_bottom y : y <> NaN -> num_le NegInfinity y
| num_le_top x : x <> NaN -> num_le x PosInfinity.

(** ** Plain objects used as maps

    A plain object with string keys is the list of its own properties in
    the order of their enumeration ([Object.keys], [Object.entries],
    [JSON.stringify]), no name twice.  JavaScript enumerates the names that
    are array indices first, in ascending order, and then the other names in
    the order in which the properties were created.

    Two ways of writing a property differ.  [obj_set] defines an own
    property as [CreateDataProperty] does (an object literal with a
    spread, [Object.fromEntries], [JSON.parse]): every name is an ordinary
    name; it is applied to entries that are listed in enumeration order
    already, and keeps a new name behind the others.  [obj_assign] is the
    assignment [o[k] = v] on an object made by the literal [{}]: the name
    [__proto__] is then the accessor of [Object.prototype], whose setter
    changes the prototype of [o] and gives [o] no own property, and a new
    name takes its place in the enumeration.  The prototype of an object is
    not part of the list. *)

Abbreviation object V := (list (string * V)).

Definition decimal_digit (c : Ascii.ascii) : option N :=
  let n := Ascii.N_of_ascii c in
  if (48 <=? n)%N && (n <=? 57)%N then Some (n - 48)%N else None.

Fixpoint decimal (s : string) (acc : N) : option N :=
  match s with
  | EmptyString => Some acc
  | String c rest =>
      match decimal_digit c with
      | Some d => decimal rest (10 * acc + d)%N
      | None => None
      end
  end.

(** The array index that a property name spells: the decimal numeral,
    without leading zero, of an integer from 0 to 2^32 - 2. *)
Definition array_index (k : string) : option N :=
  match k with
  | EmptyString => None
  | String c rest =>
      if Ascii.eqb c (Ascii.ascii_of_nat 48) && negb (String.eqb rest EmptyString)
      then None
      else
        match decimal k 0 with
        | Some n => if (n <? 4294967295)%N then Some n else None
        | None => None
        end
  end.

(** A new property named [k] is enumerated before an older one named
    [k']. *)
Definition enumerated_before (k k' : string) : bool :=
  match array_index k, array_index k' with
  | Some i, Some j => (i <? j)%N
  | Some _, None => true
  | None, _ => false
  end.

Section Objects.
Context {V : Type}.

Fixpoint obj_get (k : string) (o : object V) : option V :=
  match o with
  | [] => None
  | (k', v) :: rest => if String.eqb k k' then Some v else obj_get k rest
  end.

Fixpoint obj_set (k : string) (v : V) (o : object V) : object V :=
  match o with
  | [] => [(k, v)]
  | (k', v') :: rest =>
      if String.eqb k k' then (k, v) :: rest else (k', v') :: obj_set k v rest
  end.

(** A new own property, at its place in the enumeration. *)
Fixpoint obj_add (k : string) (v : V) (o : object V) : object V :=
  match o with
  | [] => [(k, v)]
  | (k', v') :: rest =>
      if enumerated_before k k' then (k, v) :: o else (k', v') :: obj_add k v rest
  end.

(** [o[k] = v] *)
Definition obj_assign (k : string) (v : V) (o : object V) : object V :=
  match obj_get k o with
  | Some _ => obj_set k v o
  | None => if String.eqb k "__proto__" then o else obj_add k v o
  end.

Fixpoint obj_alter (f : V -> V) (k : string) (o : object V) : object V :=
  match o with
  | [] => []
  | (k', v) :: rest =>
      if String.eqb k k' then (k', f v) :: rest else (k', v) :: obj_alter f k rest
  end.

Definition Object_keys (o : object V) : list string := map fst o.

Definition Object_entries (o : object V) : list (string * V) := o.

Definition Object_fromEntries (entries : list (string * V)) : object V :=
  fold_left (fun o e => obj_set (fst e) (snd e) o) entries [].
End Objects.

(** ** JSON data

    JSON text is represented by the tree that the JSON grammar assigns to
    it; the same trees stand for plain data such as schemas. *)

Inductive json : Type :=
| JNull
| JBool (b : bool)
| JNumber (q : Q)
| JString (s : string)
| JArray (items : list json)
| JObject (members : list (string * json)).

(** ** Arrays *)

Definition Array_map {A B : Type} (f : A -> B) (items : list A) : list B :=
  map f items.

(** [items.join(sep)] on an array of strings. *)
Fixpoint Array_join (sep : string) (items : list string) : string :=
  match items with
  | [] => ""
  | s :: rest =>
      match rest with
      | [] => s
      | _ :: _ => s +:+ sep +:+ Array_join sep rest
      end
  end.

(** ** The heap

    Objects and arrays live in a heap and are held by reference, so that
    two names for one object, a copy of an object, and an update in place
    are different things.  A location is an index into the heap; allocation
    appends a cell, and nothing is ever freed. *)

Abbreviation loc := nat.

Inductive value : Type :=
| VUndefined
| VNull
| VBool (b : bool)
| VNumber (n : number)
| VString (s : string)
| VBigInt (z : Z)
| VSymbol (s : nat)
| VFunction (f : nat)
| VRef (l : loc).

Inductive cell : Type :=
| CObject (props : list (string * value))
| CArray (elems : list value).

Abbreviation heap := (list cell).

Inductive exn : Type :=
| Error (message : string)
| TypeError (message : string)
| SyntaxError (message : string)
| RangeError (message : string).

(** A computation reads and updates the heap, and returns ([inr]) or
    throws ([inl]). *)
Definition M (A : Type) : Type := heap -> (exn + A) * heap.

Definition ret {A : Type} (a : A) : M A := fun h => (inr a, h).

Definition throw {A : Type} (e : exn) : M A := fun h => (inl e, h).

Definition bind {A B : Type} (m : M A) (k : A -> M B) : M B :=
  fun h =>
    match m h with
    | (inr a, h') => k a h'
    | (inl e, h') => (inl e, h')
    end.

Declare Scope js_scope.
Delimit Scope js_scope with js.
Notation "x <- m ;; k" := (bind m (fun x => k))
  (at level 100, m at next level, right associativity) : js_scope.
Notation "m ;; k" := (bind m (fun _ => k))
  (at level 100, right associativity) : js_scope.
Open Scope js_scope.

Definition lift {A : Type} (r : exn + A) : M A := fun h => (r, h).

(** [{...}] and [[...]]: a new cell, and the reference to it. *)
Definition alloc (c : cell) : M value :=
  fun h => (inr (VRef (length h)), h ++ [c]).

(** The values a cell holds, and the locations a value leads to. *)
Definition cell_values (c : cell) : list value :=
  match c with
  | CObject props => map snd props
  | CArray elems => elems
  end.

Inductive reachable (h : heap) : value -> loc -> Prop :=
| reachable_root l : reachable h (VRef l) l
| reachable_member l c v l' :
    h !! l = Some c -> In v (cell_values c) -> reachable h v l' ->
    reachable h (VRef l) l'.

(** [a.push(...items)] on the array at [a]. *)
Definition Array_push (a : loc) (items : list value) : M unit :=
  fun h =>
    match h !! a with
    | Some (CArray elems) => (inr tt, <[a := CArray (elems ++ items)]> h)
    | _ => (inl (TypeError "push is not a function"), h)
    end.

(** ** JSON.stringify and JSON.parse

    [JSON.stringify(v)] is [undefined] ([Omitted]) or a JSON text, or it
    throws: on a structure that contains itself, and on a BigInt.  The
    serializer follows ECMAScript's [SerializeJSONProperty] on data: [stack]
    holds the objects being serialized, and [fuel] bounds the depth of the
    descent (by the size of the heap: a descent that meets no object twice
    is no deeper).

    Two things are left to the caller of the model.  The call stack is
    taken to be deep enough for the descent, as for every other call: an
    engine that runs out of stack throws a [RangeError] instead.  And the
    serializer calls no code of the data: an object whose [toJSON] member
    is a function is written member by member here, where JavaScript writes
    what the function returns; the statements that depend on it say so
    ([plain_data]). *)

Inductive serialized : Type :=
| Omitted
| Text (j : json).

Inductive outcome (A : Type) : Type :=
| OutOfFuel
| Throws (e : exn)
| Returns (a : A).
Arguments OutOfFuel {A}.
Arguments Throws {A} e.
Arguments Returns {A} a.

(** The elements of an array: [undefined], functions and symbols become
    [null]. *)
Fixpoint SerializeJSONArray (property : value -> outcome serialized)
    (elems : list value) : outcome (list json) :=
  match elems with
  | [] => Returns []
  | v :: rest =>
      match property v with
      | OutOfFuel => OutOfFuel
      | Throws e => Throws e
      | Returns s =>
          match SerializeJSONArray property rest with
          | OutOfFuel => OutOfFuel
          | Throws e => Throws e
          | Returns js =>
              Returns (match s with Omitted => JNull | Text j => j end :: js)
          end
      end
  end.

(** The members of an object: a member whose value is [undefined], a
    function or a symbol is left out. *)
Fixpoint SerializeJSONObject (property : value -> outcome serialized)
    (props : list (string * value)) : outcome (list (string * json)) :=
  match props with
  | [] => Returns []
  | (k, v) :: rest =>
      match property v with
      | OutOfFuel => OutOfFuel
      | Throws e => Throws e
      | Returns s =>
          match SerializeJSONObject property rest with
          | OutOfFuel => OutOfFuel
          | Throws e => Throws e
          | Returns ms =>
              Returns (match s with Omitted => ms | Text j => (k, j) :: ms end)
          end
      end
  end.

Definition circular : exn := TypeError "Converting circular structure to JSON".

Definition no_bigint : exn := TypeError "Do not know how to serialize a BigInt".

Fixpoint SerializeJSONProperty (fuel : nat) (h : heap) (stack : list loc)
    (v : value) : outcome serialized :=
  match v with
  | VUndefined => Returns Omitted
  | VFunction _ => Returns Omitted
  | VSymbol _ => Returns Omitted
  | VBigInt _ => Throws no_bigint
  | VNull => Returns (Text JNull)
  | VBool b => Returns (Text (JBool b))
  | VNumber (Finite q) => Returns (Text (JNumber q))
  | VNumber _ => Returns (Text JNull)
  | VString s => Returns (Text (JString s))
  | VRef l =>
      match fuel with
      | 0 => OutOfFuel
      | S fuel =>
          if bool_decide (l ∈ stack) then Throws circular
          else
            match h !! l with
            | None => Returns Omitted
            | Some (CArray elems) =>
                match SerializeJSONArray
                        (SerializeJSONProperty fuel h (l :: stack)) elems with
                | OutOfFuel => OutOfFuel
                | Throws e => Throws e
                | Returns js => Returns (Text (JArray js))
                end
            | Some (CObject props) =>
                match SerializeJSONObject
                        (SerializeJSONProperty fuel h (l :: stack)) props with
                | OutOfFuel => OutOfFuel
                | Throws e => Throws e
                | Returns ms => Returns (Text (JObject ms))
                end
            end
      end
  end.

Definition JSON_stringify (v : value) : M serialized :=
  fun h =>
    match SerializeJSONProperty (S (length h)) h [] v with
    | Returns s => (inr s, h)
    | Throws e => (inl e, h)
    | OutOfFuel => (inl (RangeError "Maximum call stack size exceeded"), h)
    end.

(** The value a JSON text denotes, built in new cells: the members of an
    array or object first, from left to right, then the cell that holds
    them.  A key that a text repeats keeps its place and takes its last
    value. *)
Section Traverse.
Context {A B : Type} (f : A -> heap -> B * heap).

Fixpoint traverse (items : list A) (h : heap) : list B * heap :=
  match items with
  | [] => ([], h)
  | x :: rest =>
      let '(y, h1) := f x h in
      let '(ys, h2) := traverse rest h1 in
      (y :: ys, h2)
  end.
End Traverse.

Fixpoint parse_value (j : json) (h : heap) : value * heap :=
  match j with
  | JNull => (VNull, h)
  | JBool b => (VBool b, h)
  | JNumber q => (VNumber (Finite q), h)
  | JString s => (VString s, h)
  | JArray items =>
      let '(elems, h') := traverse parse_value items h in
      (VRef (length h'), h' ++ [CArray elems])
  | JObject members =>
      let '(props, h') :=
        traverse
          (fun m h => let '(v, h1) := parse_value (snd m) h in ((fst m, v), h1))
          members h in
      (VRef (length h'), h' ++ [CObject (Object_fromEntries props)])
  end.

(** [JSON.parse(text)]: an argument that is [undefined] is read as the text
    [undefined], which is no JSON text. *)
Definition JSON_parse (text : serialized) : M value :=
  match text with
  | Omitted => throw (SyntaxError "Unexpected token u in JSON at position 0")
  | Text j => fun h => let '(v, h') := parse_value j h in (inr v, h')
  end.

(** ** The validation engine

    Ajv is an external collaborator: the code constructs an instance from
    options, adds the format validators, compiles a schema into a validator
    and runs it.  Compilation is taken as a parameter; it throws on a
    schema the engine rejects.  A validator updates the heap in place (the
    coercions) and leaves [validate.errors]: [None] for [null], or the
    error records. *)

Abbreviation AjvOptions := (list (string * json)).

Record Ajv : Type := {
  options : AjvOptions;
  formats : bool
}.

Definition new_Ajv (options : AjvOptions) : Ajv :=
  {| options := options; formats := false |}.

Definition addFormats (ajv : Ajv) : Ajv :=
  {| options := options ajv; formats := true |}.

Definition ValidateFunction : Type := value -> heap -> option (list value) * heap.

Definition Compiler : Type := Ajv -> json -> exn + ValidateFunction.

(** A validator is confined when it writes only to the data it is given:
    an existing cell that its argument does not lead to is left as it
    was. *)
Definition confined (validate : ValidateFunction) : Prop :=
  forall data h errs h',
    validate data h = (errs, h') ->
    forall l, l < length h -> ~ reachable h data l -> h' !! l = h !! l.

Definition confined_engine (compile : Compiler) : Prop :=
  forall ajv schema validate,
    compile ajv schema = inr validate -> confined validate.

(** ** resolve

    [Resolvable<T> = T extends Function ? never : T | (() => T)]: since [T]
    is never a function type, [typeof resolvable === 'function'] tells the
    two members of the union apart.  A producer is a computation: it may
    read and update the heap, and throw. *)

Inductive Resolvable (T : Type) : Type :=
| Value (v : T)
| Producer (p : M T).
Arguments Value {T} v.
Arguments Producer {T} p.

Definition typeof_is_function {T : Type} (resolvable : Resolvable T) : bool :=
  match resolvable with
  | Producer _ => true
  | Value _ => false
  end.

Definition resolve {T : Type} (resolvable : Resolvable T) : M T :=
  match resolvable with
  | Producer p => p
  | Value v => ret v
  end.

(** ** formatValidationError

    The fields of Ajv's [ErrorObject] that the code reads; [params] is
    plain data.  The text that [JSON.stringify] gives for plain data is a
    parameter. *)

Record ErrorObject : Type := {
  dataPath : string;
  params : object json
}.

Section FormatValidationError.
Variable JSON_text : json -> string.

Definition formatValidationError (error : ErrorObject) : string :=
  "At '" +:+ dataPath error +:+ "': " +:+
  Array_join ", "
    (Array_map (fun e => fst e +:+ ": " +:+ JSON_text (snd e))
       (Object_entries (params error))).
End FormatValidationError.

(** ** formatArray *)

Definition default_prefix : string := String (Ascii.ascii_of_nat 10) "  * ".

(** [prefix] is [None] when the argument is left out. *)
Definition formatArray {T : Type} (items : list T) (formatter : T -> string)
    (prefix : option string) : string :=
  let prefix := default default_prefix prefix in
  Array_join "" (Array_map (fun item => prefix +:+ formatter item) items).

(** ** OpenAPI descriptors

    The fields of [openapi-types]' [OpenAPIV3] interfaces that the code
    reads.  A member of an operation's [parameters] is a [ReferenceObject]
    ([{$ref}], which has no [in] field) or a [ParameterObject] (whose [in]
    and [name] are mandatory): ['in' in parameter] tells them apart. *)

Module OpenAPIV3.
Record ReferenceObject : Type := { ref : string }.

Record ParameterObject : Type := {
  name : string;
  in_ : string;
  required : option bool;
  schema : option json
}.

Inductive ParameterEntry : Type :=
| Reference (r : ReferenceObject)
| Param (p : ParameterObject).

Record OperationObject : Type := {
  parameters : option (list ParameterEntry)
}.
End OpenAPIV3.

Inductive ParameterType : Type := header | query | path | cookie.

Definition ParameterType_string (type : ParameterType) : string :=
  match type with
  | header => "header"
  | query => "query"
  | path => "path"
  | cookie => "cookie"
  end.

(** ** getParameterMap *)

Definition getParameterMap (operation : OpenAPIV3.OperationObject)
    (type : ParameterType) : object OpenAPIV3.ParameterObject :=
  let parameters := default [] (OpenAPIV3.parameters operation) in
  fold_left
    (fun result parameter =>
       match parameter with
       | OpenAPIV3.Param p =>
           (* 'in' in parameter, and parameter.in === type *)
           if String.eqb (OpenAPIV3.in_ p) (ParameterType_string type)
           then obj_assign (OpenAPIV3.name p) p result
           else result
       | OpenAPIV3.Reference _ =>
           (* no field 'in' *)
           result
       end)
    parameters [].

(** ** getParametersSchema *)

(** [o[k] = f(o[k])] for a member [k] that [o] has; used for the updates of
    the nested [properties] and [required] members. *)
Definition member_update (k : string) (f : json -> json) (o : json) : json :=
  match o with
  | JObject members => JObject (obj_alter f k members)
  | _ => o
  end.

(** [o[k] = v] *)
Definition property_assign (k : string) (v : json) (o : json) : json :=
  match o with
  | JObject members => JObject (obj_assign k v members)
  | _ => o
  end.

(** [a.push(v)] *)
Definition json_push (v : json) (a : json) : json :=
  match a with
  | JArray items => JArray (items ++ [v])
  | _ => a
  end.

Definition getParametersSchema
    (parameters : object OpenAPIV3.ParameterObject) : json :=
  let result :=
    JObject [("type", JString "object");
             ("required", JArray []);
             ("properties", JObject []);
             ("additionalProperties", JBool true)] in
  fold_left
    (fun result entry =>
       let name := fst entry in
       let parameter := snd entry in
       let required := default false (OpenAPIV3.required parameter) in
       let schema := default (JObject []) (OpenAPIV3.schema parameter) in
       let result := member_update "properties" (property_assign name schema) result in
       if required
       then member_update "required" (json_push (JString name)) result
       else result)
    (Object_entries parameters) result.

(** ** cloneObject *)

Definition cloneObject (source : value) : M value :=
  text <- JSON_stringify source ;;
  JSON_parse text.

(** ** matchSchema

    [errors] is the caller's array, an out parameter. *)

Definition run_validate (validate : ValidateFunction) (data : value)
    : M (option (list value)) :=
  fun h => let '(errs, h') := validate data h in (inr errs, h').

Section MatchSchema.
Variable compile : Compiler.

Definition matchSchema (source : value) (schema : json) (errors : loc)
    (ajvOptions : option AjvOptions) : M value :=
  result <- cloneObject source ;;
  validate <-
    lift (compile
            (addFormats
               (new_Ajv
                  (obj_set "coerceTypes" (JString "array")
                     (default [] ajvOptions))))
            schema) ;;
  validate_errors <- run_validate validate result ;;
  match validate_errors with
  | Some errs => Array_push errors errs
  | None => ret tt
  end ;;
  ret result.
End MatchSchema.

(** ** mapObject

    [obj] is held by reference, and [func] is any computation: it may read
    and update the heap, and throw.  The arrays that [Object.entries] and
    [map] build on the way are reachable from nowhere once the call is over
    and are left out of the heap. *)

(** [Object.entries(obj)]: the members of an object; the elements of an
    array under their indices. *)
Definition Object_entries_at (obj : loc) : M (list (string * value)) :=
  fun h =>
    match h !! obj with
    | Some (CObject props) => (inr (Object_entries props), h)
    | Some (CArray elems) => (inr (imap (fun i v => (pretty i, v)) elems), h)
    | None => (inl (TypeError "Cannot convert undefined or null to object"), h)
    end.

(** [items.map(f)] for a callback with effects: the calls are made from
    left to right, and the first one that throws ends the loop. *)
Fixpoint Array_mapM {A B : Type} (f : A -> M B) (items : list A) : M (list B) :=
  match items with
  | [] => ret []
  | x :: rest =>
      y <- f x ;;
      ys <- Array_mapM f rest ;;
      ret (y :: ys)
  end.

Definition mapObject (obj : loc) (func : value -> string -> value -> M value)
    : M value :=
  entries <- Object_entries_at obj ;;
  mapped <-
    Array_mapM
      (fun e => w <- func (snd e) (fst e) (VRef obj) ;; ret (fst e, w))
      entries ;;
  alloc (CObject (Object_fromEntries mapped)).

(** ** transform and oneOrMany

    [OneOrMany<T> = T | Array<T>] is an untagged union that the code
    discriminates with [Array.isArray]; values are taken from the universe
    of plain data.  A function is applied to the list of its arguments:
    [func(value)] passes one argument, and [value.map(func)] calls
    [func(element, index, array)] for each element in turn, so that a
    callback with further parameters sees the index and the array. *)

Definition Array_isArray (value : json) : bool :=
  match value with
  | JArray _ => true
  | _ => false
  end.

Definition array_items (value : json) : list json :=
  match value with
  | JArray items => items
  | _ => []
  end.

(** [array.map(callback)] *)
Definition Array_prototype_map (array : json) (callback : list json -> json)
    : json :=
  JArray
    (imap (fun index element =>
             callback [element; JNumber (inject_Z (Z.of_nat index)); array])
       (array_items array)).

Definition transform (value : json) (func : list json -> json) : json :=
  if Array_isArray value
  then Array_prototype_map value func
  else func [value].

Definition oneOrMany (func : list json -> json) : json -> json :=
  fun value =>
    if Array_isArray value
    then Array_prototype_map value func
    else func [value].

(** ** inRange *)

Definition inRange (min max : number) : number -> bool :=
  fun value => js_ge value min && js_lt value max.

(** ** A small engine

    An engine for schemas of the shape
    [{properties: {k: {type: 'integer'}, ...}}], used to run the functions
    on examples.  A member that is a number passes; a member that is a
    string of decimal digits is replaced by the number it spells when the
    instance has [coerceTypes] set; any other member is reported by an
    error record.  Data that is no object is reported as well. *)

Definition digit (c : Ascii.ascii) : option Z :=
  let n := Ascii.nat_of_ascii c in
  if (48 <=? n)%nat && (n <=? 57)%nat then Some (Z.of_nat (n - 48)) else None.

Fixpoint digits (s : string) (acc : Z) : option Z :=
  match s with
  | EmptyString => Some acc
  | String c rest =>
      match digit c with
      | Some d => digits rest (10 * acc + d)%Z
      | None => None
      end
  end.

Definition integer_of_string (s : string) : option number :=
  match s with
  | EmptyString => None
  | _ => (fun z => Finite (inject_Z z)) <$> digits s 0%Z
  end.

Definition wants_integer (schema : json) : bool :=
  match schema with
  | JObject members =>
      match obj_get "type" members with
      | Some (JString t) => String.eqb t "integer"
      | _ => false
      end
  | _ => false
  end.

(** One declared property: the members after coercion, and the keys that
    failed so far. *)
Definition check_member (coerce : bool)
    (state : list (string * value) * list string) (wanted : string * json)
    : list (string * value) * list string :=
  let '(props, bad) := state in
  let k := fst wanted in
  if wants_integer (snd wanted) then
    match obj_get k props with
    | None => (props, bad)
    | Some (VNumber _) => (props, bad)
    | Some (VString s) =>
        match (if coerce then integer_of_string s else None) with
        | Some n => (obj_assign k (VNumber n) props, bad)
        | None => (props, bad ++ [k])
        end
    | Some _ => (props, bad ++ [k])
    end
  else (props, bad).

Definition error_record (dataPath : string) : cell :=
  CObject [("keyword", VString "type");
           ("dataPath", VString dataPath);
           ("message", VString "must be integer")].

Definition simple_validate (coerce : bool) (wanted : list (string * json))
    : ValidateFunction :=
  fun data h =>
    match data with
    | VRef l =>
        match h !! l with
        | Some (CObject props) =>
            let '(props', bad) := fold_left (check_member coerce) wanted (props, []) in
            let h1 := <[l := CObject props']> h in
            match bad with
            | [] => (None, h1)
            | _ :: _ =>
                (Some (map VRef (seq (length h1) (length bad))),
                 h1 ++ map (fun k => error_record ("/" +:+ k)) bad)
            end
        | _ => (Some [VRef (length h)], h ++ [error_record ""])
        end
    | _ => (Some [VRef (length h)], h ++ [error_record ""])
    end.

Definition coerces (ajv : Ajv) : bool :=
  match obj_get "coerceTypes" (options ajv) with
  | Some (JString _) => true
  | Some (JBool b) => b
  | _ => false
  end.

Definition simple_compile : Compiler :=
  fun ajv schema =>
    match schema with
    | JObject members =>
        match obj_get "properties" members with
        | Some (JObject wanted) => inr (simple_validate (coerces ajv) wanted)
        | Some _ => inl (Error "schema is invalid")
        | None => inr (simple_validate (coerces ajv) [])
        end
    | _ => inl (Error "schema is invalid")
    end.

(** The schema [{type: 'object', properties: {count: {type: 'integer'}}}],
    and a heap with the object [{count: "5"}] at 0 and an empty array at 1. *)
Definition count_schema : json :=
  JObject [("type", JString "object");
           ("properties", JObject [("count", JObject [("type", JString "integer")])])].

Definition count_heap : heap :=
  [CObject [("count", VString "5")]; CArray []].

(** A heap with the object [{count: "bad"}] at 0 and, at 1, an array that
    holds the record of an earlier error. *)
Definition reported_heap : heap :=
  [CObject [("count", VString "bad")]; CArray [VRef 2]; error_record "/earlier"].

(** ** Vocabulary of the statements *)

(** [p] is the last member of [parameters] that is a parameter named [n]
    whose [in] field is [type]. *)
Definition last_declared (parameters : list OpenAPIV3.ParameterEntry)
    (type : ParameterType) (n : string) (p : OpenAPIV3.ParameterObject) : Prop :=
  exists earlier later,
    parameters = earlier ++ OpenAPIV3.Param p :: later /\
    OpenAPIV3.name p = n /\
    OpenAPIV3.in_ p = ParameterType_string type /\
    forall q, In (OpenAPIV3.Param q) later ->
              OpenAPIV3.in_ q = ParameterType_string type ->
              OpenAPIV3.name q <> n.

(** [o[k]] of a JSON object. *)
Definition json_get (k : string) (o : json) : option json :=
  match o with
  | JObject members => obj_get k members
  | _ => None
  end.

Definition declared_schema (p : OpenAPIV3.ParameterObject) : json :=
  default (JObject []) (OpenAPIV3.schema p).

Definition is_required (entry : string * OpenAPIV3.ParameterObject) : bool :=
  default false (OpenAPIV3.required (snd entry)).

Definition schema_object (required : list json)
    (properties : list (string * json)) : json :=
  JObject [("type", JString "object");
           ("required", JArray required);
           ("properties", JObject properties);
           ("additionalProperties", JBool true)].

(** A value or a cell that refers to no location below [n]. *)
Definition value_above (n : nat) (v : value) : Prop :=
  match v with
  | VRef l => n <= l
  | _ => True
  end.

Definition cell_above (n : nat) (c : cell) : Prop :=
  Forall (value_above n) (cell_values c).

(** Plain data: no object that the value leads to has a [toJSON] method,
    so that [JSON.stringify] calls no code of the data.  A heap all of
    whose objects are so holds plain data only. *)
Definition cell_plain (c : cell) : Prop :=
  match c with
  | CObject props =>
      match obj_get "toJSON" props with
      | Some (VFunction _) => False
      | _ => True
      end
  | CArray _ => True
  end.

Definition plain_data (h : heap) (v : value) : Prop :=
  forall l c, reachable h v l -> h !! l = Some c -> cell_plain c.

Definition heap_plain (h : heap) : Prop := Forall cell_plain h.

(** The heap [h'] is [h] followed by cells that refer to nothing in [h]. *)
Definition grows_above (h h' : heap) : Prop :=
  exists k, h' = h ++ k /\ Forall (cell_above (length h)) k.

(** A computation that leaves the cell at [obj] as it is, and one that
    returns whatever the heap. *)
Definition leaves {A : Type} (obj : loc) (m : M A) : Prop :=
  forall h r h', m h = (r, h') -> h' !! obj = h !! obj.

Definition returns {A : Type} (m : M A) : Prop :=
  forall h, exists a h', m h = (inr a, h').

(** The calls [func(v, k, obj)] for the entries of a list in turn, each in
    the heap that the call before left: the results under the keys of the
    entries, and the heap after the last call. *)
Inductive calls (func : value -> string -> value -> M value) (obj : loc)
    : list (string * value) -> heap -> list (string * value) -> heap -> Prop :=
| calls_done h : calls func obj [] h [] h
| calls_next k v rest h w h1 ws h2 :
    func v k (VRef obj) h = (inr w, h1) ->
    calls func obj rest h1 ws h2 ->
    calls func obj ((k, v) :: rest) h ((k, w) :: ws) h2.

(** [v => v + 1] on numbers, and a heap with the object [{a: 1, b: 2}]. *)
Definition increment (v : value) (k : string) (o : value) : M value :=
  ret (match v with
       | VNumber (Finite q) => VNumber (Finite (q + 1))
       | _ => v
       end).

(** [(v, k, o) => { o.b = 0; return v }] *)
Definition zero_b (v : value) (k : string) (o : value) : M value :=
  fun h =>
    match o with
    | VRef l =>
        match h !! l with
        | Some (CObject props) =>
            (inr v, <[l := CObject (obj_assign "b" (VNumber (Finite 0)) props)]> h)
        | _ => (inr v, h)
        end
    | _ => (inr v, h)
    end.

Definition ab_heap : heap :=
  [CObject [("a", VNumber (Finite 1)); ("b", VNumber (Finite 2))]].

(** A query parameter named [__proto__]. *)
Definition proto_parameter : OpenAPIV3.ParameterObject :=
  {| OpenAPIV3.name := "__proto__"; OpenAPIV3.in_ := "query";
     OpenAPIV3.required := Some true;
     OpenAPIV3.schema := Some (JObject [("type", JString "string")]) |}.

(** The parameter map of the specification's example:
    [{id: {required: true, schema: {type: 'string'}},
      age: {required: false, schema: {type: 'integer'}}}]. *)
Definition example_parameters : object OpenAPIV3.ParameterObject :=
  [("id", {| OpenAPIV3.name := "id"; OpenAPIV3.in_ := "query";
             OpenAPIV3.required := Some true;
             OpenAPIV3.schema := Some (JObject [("type", JString "string")]) |});
   ("age", {| OpenAPIV3.name := "age"; OpenAPIV3.in_ := "query";
              OpenAPIV3.required := Some false;
              OpenAPIV3.schema := Some (JObject [("type", JString "integer")]) |})].

(** [x => x * 2] on numbers. *)
Definition double (arguments : list json) : json :=
  match arguments with
  | JNumber q :: _ => JNumber (q * 2)
  | x :: _ => x
  | [] => JNull
  end.

(** [x => [x, x]] *)
Definition twice (arguments : list json) : json :=
  JArray (firstn 1 arguments ++ firstn 1 arguments).

(** [(x, i = 0) => x + i] on numbers. *)
Definition plus_index (arguments : list json) : json :=
  match arguments with
  | JNumber q :: JNumber i :: _ => JNumber (q + i)
  | x :: _ => x
  | [] => JNull
  end.

(** Induction on JSON trees, with the members of an array or an object as
    induction hypotheses. *)
Section JsonInduction.
Variable P : json -> Prop.
Hypothesis HNull : P JNull.
Hypothesis HBool : forall b, P (JBool b).
Hypothesis HNumber : forall q, P (JNumber q).
Hypothesis HString : forall s, P (JString s).
Hypothesis HArray : forall items, Forall P items -> P (JArray items).
Hypothesis HObject : forall members, Forall (fun m => P (snd m)) members -> P (JObject members).

Fixpoint json_induction (j : json) : P j :=
  match j with
  | JNull => HNull
  | JBool b => HBool b
  | JNumber q => HNumber q
  | JString s => HString s
  | JArray items =>
      HArray items
        ((fix all (l : list json) : Forall P l :=
            match l with
            | [] => Forall_nil_2 P
            | x :: rest => Forall_cons_2 P x rest (json_induction x) (all rest)
            end) items)
  | JObject members =>
      HObject members
        ((fix all (l : list (string * json)) : Forall (fun m => P (snd m)) l :=
            match l with
            | [] => Forall_nil_2 _
            | m :: rest => Forall_cons_2 _ m rest (json_induction (snd m)) (all rest)
            end) members)
  end.
End JsonInduction.

(** ** Vocabulary of the further statements *)

(** A value for which [JSON.stringify] gives [undefined]: [undefined], a
    function, a symbol, or a reference to nothing. *)
Definition absentb (h : heap) (v : value) : bool :=
  match v with
  | VUndefined => true
  | VFunction _ => true
  | VSymbol _ => true
  | VRef l => match h !! l with None => true | Some _ => false end
  | _ => false
  end.

(** No object of a JSON text, or of a heap, has a key twice. *)
Inductive keys_unique : json -> Prop :=
| keys_unique_null : keys_unique JNull
| keys_unique_bool b : keys_unique (JBool b)
| keys_unique_number q : keys_unique (JNumber q)
| keys_unique_string s : keys_unique (JString s)
| keys_unique_array items :
    Forall keys_unique items -> keys_unique (JArray items)
| keys_unique_object members :
    NoDup (Object_keys members) ->
    Forall (fun m => keys_unique (snd m)) members ->
    keys_unique (JObject members).

Definition cell_unique (c : cell) : Prop :=
  match c with
  | CObject props => NoDup (Object_keys props)
  | CArray _ => True
  end.

Definition heap_unique (h : heap) : Prop := Forall cell_unique h.

(** An operation with two query parameters named [id], a reference and a
    header parameter. *)
Definition example_operation : OpenAPIV3.OperationObject :=
  {| OpenAPIV3.parameters :=
       Some [OpenAPIV3.Param {| OpenAPIV3.name := "id"; OpenAPIV3.in_ := "query";
                                OpenAPIV3.required := None; OpenAPIV3.schema := None |};
             OpenAPIV3.Reference {| OpenAPIV3.ref := "#/components/parameters/p" |};
             OpenAPIV3.Param {| OpenAPIV3.name := "authorization";
                                OpenAPIV3.in_ := "header";
                                OpenAPIV3.required := Some true;
                                OpenAPIV3.schema := None |};
             OpenAPIV3.Param {| OpenAPIV3.name := "id"; OpenAPIV3.in_ := "query";
                                OpenAPIV3.required := Some true;
                                OpenAPIV3.schema := None |}] |}.

(** A heap with the array [[undefined, 1]] and the object
    [{a: undefined, f: function, n: NaN, xs: <the array>}]. *)
Definition mixed_heap : heap :=
  [CArray [VUndefined; VNumber (Finite 1)];
   CObject [("a", VUndefined); ("f", VFunction 0); ("n", VNumber NaN);
            ("xs", VRef 0)]].

(** [(v, k) => { if (k === key) throw new Error(key); return v }]. *)
Definition throws_at (key : string) (v : value) (k : string) (o : value) : M value :=
  if String.eqb k key then throw (Error key) else ret v.

(** Reading a JSON text and writing the value read gives the text again,
    when the recursion is deep enough. *)
Definition reads_back (j : json) : Prop :=
  keys_unique j ->
  forall h v h1, parse_value j h = (v, h1) ->
  forall k stack fuel,
    Forall (fun l => length h1 <= l) stack ->
    SerializeJSONProperty fuel (h1 ++ k) stack v = OutOfFuel \/
    SerializeJSONProperty fuel (h1 ++ k) stack v = Returns (Text j).

(** * Proofs *)

(** ** Numbers *)

Lemma Qltb_lt p q : Qltb p q = true <-> (p < q)%Q.
Proof.
  unfold Qltb. rewrite negb_true_iff.
  destruct (Qle_bool q p) eqn:E.
  - apply Qle_bool_iff in E. split; [discriminate | intros H; lra].
  - split; [intros _ | reflexivity].
    apply Qnot_le_lt. intros H. apply Qle_bool_iff in H. congruence.
Qed.

Lemma Qltb_ge p q : Qltb p q = false <-> (q <= p)%Q.
Proof.
  unfold Qltb. rewrite negb_false_iff. apply Qle_bool_iff.
Qed.

Lemma js_lt_num_lt x y : js_lt x y = true <-> num_lt x y.
Proof.
  destruct x as [| |p|], y as [| |q|]; cbn;
    try (split; [discriminate | intros H; inversion H]);
    try (split; [constructor | reflexivity]).
  rewrite Qltb_lt. split; [constructor; assumption | intros H; inversion H; assumption].
Qed.

Lemma js_ge_num_le x y : js_ge x y = true <-> num_le y x.
Proof.
  destruct x as [| |p|], y as [| |q|]; cbn;
    try (split; [discriminate | intros H; inversion H; congruence]);
    try (split; [constructor; discriminate | reflexivity]).
  destruct (Qltb p q) eqn:E.
  - apply Qltb_lt in E. split; [discriminate | intros H; inversion H; lra].
  - apply Qltb_ge in E. split; [constructor; assumption | reflexivity].
Qed.

Lemma num_le_lt_le_absurd a b c : num_le a b -> num_lt b c -> num_le c a -> False.
Proof.
  intros Hab Hbc Hca.
  destruct Hab; inversion Hbc; subst; inversion Hca; subst; try congruence; lra.
Qed.

(** ** Objects *)

Section ObjectFacts.
Context {V : Type}.
Implicit Types (o : object V) (k : string) (v : V).

Lemma obj_get_set k k' v o :
  obj_get k' (obj_set k v o) = if String.eqb k' k then Some v else obj_get k' o.
Proof.
  induction o as [|[k0 v0] o IH]; cbn.
  - reflexivity.
  - destruct (String.eqb_spec k k0) as [->|Hk]; cbn.
    + destruct (String.eqb_spec k' k0); reflexivity.
    + rewrite IH. destruct (String.eqb_spec k' k0) as [->|]; [|reflexivity].
      destruct (String.eqb_spec k0 k); congruence.
Qed.

Lemma obj_get_set_eq k v o : obj_get k (obj_set k v o) = Some v.
Proof. rewrite obj_get_set, String.eqb_refl. reflexivity. Qed.

Lemma obj_get_set_ne k k' v o : k' <> k -> obj_get k' (obj_set k v o) = obj_get k' o.
Proof.
  intros H. rewrite obj_get_set. apply String.eqb_neq in H. rewrite H. reflexivity.
Qed.

Lemma obj_get_None k o : obj_get k o = None <-> ~ In k (Object_keys o).
Proof.
  induction o as [|[k0 v0] o IH]; cbn.
  - tauto.
  - destruct (String.eqb_spec k k0) as [->|Hk].
    + split; [discriminate | intros H; exfalso; apply H; left; reflexivity].
    + rewrite IH. split; [intros H [E|E]; [congruence | tauto] | tauto].
Qed.

Lemma obj_get_Some_In k v o : obj_get k o = Some v -> In (k, v) o.
Proof.
  induction o as [|[k0 v0] o IH]; cbn; [discriminate|].
  destruct (String.eqb_spec k k0) as [->|Hk].
  - intros [= ->]. left; reflexivity.
  - intros H. right. apply IH, H.
Qed.

Lemma obj_get_In k v o : NoDup (Object_keys o) -> In (k, v) o -> obj_get k o = Some v.
Proof.
  induction o as [|[k0 v0] o IH]; cbn; [tauto|].
  intros Hnd [E|Hin]; inversion Hnd as [|? ? Hk0 Hnd']; subst.
  - inversion E; subst. rewrite String.eqb_refl. reflexivity.
  - destruct (String.eqb_spec k k0) as [->|Hk].
    + exfalso. apply Hk0. apply list_elem_of_In.
      change k0 with (fst (k0, v)). apply in_map, Hin.
    + apply IH; assumption.
Qed.

Lemma obj_set_fresh k v o : ~ In k (Object_keys o) -> obj_set k v o = o ++ [(k, v)].
Proof.
  induction o as [|[k0 v0] o IH]; cbn; [reflexivity|].
  intros H. destruct (String.eqb_spec k k0) as [->|Hk]; [tauto|].
  rewrite IH; [reflexivity | tauto].
Qed.

Lemma obj_set_keys k v o :
  Object_keys (obj_set k v o) =
  match obj_get k o with
  | Some _ => Object_keys o
  | None => Object_keys o ++ [k]
  end.
Proof.
  induction o as [|[k0 v0] o IH]; cbn; [reflexivity|].
  destruct (String.eqb_spec k k0) as [->|Hk]; cbn; [reflexivity|].
  unfold Object_keys in IH. rewrite IH. destruct (obj_get k o); reflexivity.
Qed.

Lemma obj_set_NoDup k v o : NoDup (Object_keys o) -> NoDup (Object_keys (obj_set k v o)).
Proof.
  intros H. rewrite obj_set_keys. destruct (obj_get k o) eqn:E; [assumption|].
  apply obj_get_None in E. apply NoDup_app. split; [assumption|]. split.
  - intros x Hx Hx'. apply list_elem_of_In in Hx. apply list_elem_of_In in Hx'.
    destruct Hx' as [->|[]]. tauto.
  - apply NoDup_singleton.
Qed.

Lemma obj_get_add k k' v o :
  obj_get k o = None ->
  obj_get k' (obj_add k v o) = if String.eqb k' k then Some v else obj_get k' o.
Proof.
  induction o as [|[k0 v0] o IH]; cbn; [reflexivity|].
  destruct (String.eqb_spec k k0) as [->|Hk]; [discriminate|]. intros Hnone.
  destruct (enumerated_before k k0); cbn; [reflexivity|].
  rewrite (IH Hnone).
  destruct (String.eqb_spec k' k0) as [->|]; [|reflexivity].
  destruct (String.eqb_spec k0 k); congruence.
Qed.

Lemma obj_add_keys k v o : Object_keys (obj_add k v o) ≡ₚ k :: Object_keys o.
Proof.
  induction o as [|[k0 v0] o IH]; cbn; [reflexivity|].
  destruct (enumerated_before k k0); cbn; [reflexivity|].
  unfold Object_keys in IH. rewrite IH. apply Permutation_swap.
Qed.

(** What [o[k']] is after [o[k] = v]. *)
Lemma obj_get_assign k k' v o :
  obj_get k' (obj_assign k v o) =
  if String.eqb k' k
  then match obj_get k o with
       | Some _ => Some v
       | None => if String.eqb k "__proto__" then None else Some v
       end
  else obj_get k' o.
Proof.
  unfold obj_assign. destruct (obj_get k o) as [v0|] eqn:E.
  - apply obj_get_set.
  - destruct (String.eqb k "__proto__").
    + destruct (String.eqb_spec k' k) as [->|]; [exact E | reflexivity].
    + apply obj_get_add, E.
Qed.

Lemma obj_assign_NoDup k v o :
  NoDup (Object_keys o) -> NoDup (Object_keys (obj_assign k v o)).
Proof.
  intros H. unfold obj_assign. destruct (obj_get k o) as [v0|] eqn:E.
  - apply obj_set_NoDup, H.
  - destruct (String.eqb k "__proto__"); [exact H|].
    rewrite obj_add_keys. apply NoDup_cons. split; [|exact H].
    intros Hin. apply obj_get_None in E. apply E, list_elem_of_In, Hin.
Qed.

(** An object made by assignments to [{}] has no own property
    [__proto__]. *)
Lemma obj_assign_proto k v o :
  obj_get "__proto__" o = None -> obj_get "__proto__" (obj_assign k v o) = None.
Proof.
  intros H. rewrite obj_get_assign.
  destruct (String.eqb_spec "__proto__" k) as [<-|]; [|exact H].
  rewrite H. reflexivity.
Qed.

(** Entries whose keys are all different are the object they build. *)
Lemma fromEntries_onto (entries acc : object V) :
  NoDup (Object_keys (acc ++ entries)) ->
  fold_left (fun o e => obj_set (fst e) (snd e) o) entries acc = acc ++ entries.
Proof.
  revert acc. induction entries as [|[k v] entries IH]; intros acc Hnd; cbn.
  - rewrite app_nil_r. reflexivity.
  - rewrite obj_set_fresh.
    + rewrite IH; rewrite <- app_assoc; [reflexivity | exact Hnd].
    + unfold Object_keys in *. rewrite map_app in Hnd. cbn in Hnd.
      apply NoDup_app in Hnd as (_ & Hd & _).
      intros Hin. apply (Hd k); [apply list_elem_of_In, Hin | left].
Qed.

Lemma Object_fromEntries_NoDup (entries : object V) :
  NoDup (Object_keys entries) -> Object_fromEntries entries = entries.
Proof. intros H. unfold Object_fromEntries. rewrite fromEntries_onto; [reflexivity | exact H]. Qed.
End ObjectFacts.

(** ** Arrays *)

Lemma append_empty_r (s : string) : s +:+ "" = s.
Proof.
  induction s as [|c s IH]; [reflexivity|].
  change (String c (s +:+ "") = String c s). rewrite IH. reflexivity.
Qed.

Lemma Array_join_concat (items : list string) :
  Array_join "" items = fold_right String.append "" items.
Proof.
  induction items as [|s rest IH]; cbn; [reflexivity|].
  destruct rest as [|s' rest'].
  - cbn. rewrite append_empty_r. reflexivity.
  - rewrite IH. reflexivity.
Qed.

(** ** The pure functions *)

(** C5. [resolve] of a producer is the call of the producer: the same
    result or exception, and the same effect; [resolve] of a value that is
    no function returns that value and does nothing else. *)
Theorem resolve_spec (T : Type) :
  (forall p : M T,
      typeof_is_function (Producer p) = true /\ resolve (Producer p) = p) /\
  (forall v : T,
      typeof_is_function (Value v) = false /\
      forall h, resolve (Value v) h = (inr v, h)).
Proof. split; intros x; split; reflexivity. Qed.

(** C8. [formatArray] concatenates, in input order, the prefix followed by
    each formatted item; no item gives the empty string. *)
Theorem formatArray_spec (T : Type) (items : list T) (formatter : T -> string)
    (prefix : string) :
  formatArray items formatter (Some prefix) =
    fold_right (fun item rest => (prefix +:+ formatter item) +:+ rest) "" items /\
  formatArray [] formatter (Some prefix) = "".
Proof.
  split; [|reflexivity].
  unfold formatArray, Array_map. cbn [default from_option id].
  rewrite Array_join_concat.
  induction items as [|x items IH]; [reflexivity|].
  cbn [map fold_right]. rewrite IH. reflexivity.
Qed.

(** C6, as amended.  [transform] and [oneOrMany] agree.  On an array
    they return an array of the same length whose element at each index is
    the result of [func(element, index, array)]; for a [func] that reads
    its first argument only, this is [func] applied to each element, in
    order.  On any other value they return [func(value)]. *)
Theorem transform_spec (value : json) (func : list json -> json) :
  transform value func = oneOrMany func value /\
  (forall items, value = JArray items ->
     exists results,
       transform value func = JArray results /\
       length results = length items /\
       (forall i,
          results !! i =
          (fun element => func [element; JNumber (inject_Z (Z.of_nat i)); value])
            <$> items !! i) /\
       ((forall x rest, func (x :: rest) = func [x]) ->
        results = Array_map (fun element => func [element]) items)) /\
  (Array_isArray value = false -> transform value func = func [value]).
Proof.
  split; [reflexivity|]. split.
  - intros items ->. eexists. split; [reflexivity|]. cbn [array_items].
    split; [apply length_imap|]. split.
    + intros i. apply list_lookup_imap.
    + intros Hfirst. unfold Array_map.
      rewrite <- (imap_const (fun element => func [element])).
      apply imap_ext. intros i x _. apply Hfirst.
  - intros H. unfold transform. rewrite H. reflexivity.
Qed.

(** C7. The predicate [inRange min max] holds of [value] exactly when
    [min <= value < max]; when [max <= min] it holds of nothing. *)
Theorem inRange_spec (min max value : number) :
  (inRange min max value = true <-> num_le min value /\ num_lt value max) /\
  (num_le max min -> inRange min max value = false).
Proof.
  assert (Hiff : inRange min max value = true <-> num_le min value /\ num_lt value max).
  { unfold inRange. rewrite andb_true_iff, js_ge_num_le, js_lt_num_lt. reflexivity. }
  split; [exact Hiff|].
  intros Hdeg. destruct (inRange min max value) eqn:E; [|reflexivity].
  exfalso. destruct Hiff as [[Hle Hlt] _]; [reflexivity|].
  exact (num_le_lt_le_absurd _ _ _ Hle Hlt Hdeg).
Qed.

(** ** getParameterMap *)

Lemma snoc_split {A : Type} (l earlier later : list A) (x a : A) :
  l ++ [x] = earlier ++ a :: later ->
  (later = [] /\ l = earlier /\ x = a) \/
  (exists later', later = later' ++ [x] /\ l = earlier ++ a :: later').
Proof.
  intros H. destruct later as [|b later _] using rev_ind.
  - left. apply app_inj_tail in H as [-> ->]. auto.
  - right. exists later.
    rewrite app_comm_cons, app_assoc in H. apply app_inj_tail in H as [-> ->]. auto.
Qed.

Lemma getParameterMap_snoc ps x type :
  getParameterMap {| OpenAPIV3.parameters := Some (ps ++ [x]) |} type =
  let result := getParameterMap {| OpenAPIV3.parameters := Some ps |} type in
  match x with
  | OpenAPIV3.Param p =>
      if String.eqb (OpenAPIV3.in_ p) (ParameterType_string type)
      then obj_assign (OpenAPIV3.name p) p result
      else result
  | OpenAPIV3.Reference _ => result
  end.
Proof. unfold getParameterMap. cbn. rewrite fold_left_app. reflexivity. Qed.

Lemma last_declared_skip ps x type n p :
  (forall q, x = OpenAPIV3.Param q ->
             OpenAPIV3.in_ q = ParameterType_string type -> OpenAPIV3.name q <> n) ->
  last_declared (ps ++ [x]) type n p <-> last_declared ps type n p.
Proof.
  intros Hx. split.
  - intros (earlier & later & Heq & Hn & Hin & Hlast).
    apply snoc_split in Heq as [(-> & -> & ->) | (later' & -> & ->)].
    + exfalso. exact (Hx p eq_refl Hin Hn).
    + exists earlier, later'. repeat split; try assumption.
      intros q Hq. apply Hlast, in_or_app. left. exact Hq.
  - intros (earlier & later & -> & Hn & Hin & Hlast).
    exists earlier, (later ++ [x]). rewrite <- app_assoc. repeat split; try assumption.
    intros q Hq. apply in_app_or in Hq as [Hq | [E | []]].
    + apply Hlast, Hq.
    + apply Hx. exact E.
Qed.

Lemma last_declared_here ps type p :
  OpenAPIV3.in_ p = ParameterType_string type ->
  forall n p', last_declared (ps ++ [OpenAPIV3.Param p]) type n p' <->
    (n = OpenAPIV3.name p /\ p' = p) \/
    (n <> OpenAPIV3.name p /\ last_declared ps type n p').
Proof.
  intros Hin n p'. split.
  - intros (earlier & later & Heq & Hn & Hin' & Hlast).
    apply snoc_split in Heq as [(-> & -> & E) | (later' & -> & ->)].
    + inversion E; subst. left. auto.
    + right. assert (Hne : OpenAPIV3.name p <> n).
      { apply Hlast; [apply in_or_app; right; left; reflexivity | exact Hin]. }
      split; [congruence|].
      exists earlier, later'. repeat split; try assumption.
      intros q Hq. apply Hlast, in_or_app. left. exact Hq.
  - intros [[-> ->] | [Hne Hl]].
    + exists ps, []. repeat split; try assumption. intros q [].
    + apply last_declared_skip; [|exact Hl].
      intros q [= <-] _. congruence.
Qed.

Lemma getParameterMap_list ps type :
  let result := getParameterMap {| OpenAPIV3.parameters := Some ps |} type in
  NoDup (Object_keys result) /\
  forall n p, obj_get n result = Some p <->
              n <> "__proto__" /\ last_declared ps type n p.
Proof.
  induction ps as [|x ps [IHnd IH]] using rev_ind.
  - cbn. split; [constructor|]. intros n p. split; [discriminate|].
    intros (_ & earlier & later & Heq & _). destruct earlier; discriminate.
  - rewrite getParameterMap_snoc. cbv zeta.
    set (result := getParameterMap {| OpenAPIV3.parameters := Some ps |} type) in *.
    assert (Hproto : obj_get "__proto__" result = None).
    { destruct (obj_get "__proto__" result) as [q|] eqn:E; [|reflexivity].
      apply IH in E as [E _]. congruence. }
    destruct x as [r|p0].
    + split; [exact IHnd|]. intros n p. rewrite IH.
      rewrite (last_declared_skip ps (OpenAPIV3.Reference r)); [reflexivity|].
      intros q [=].
    + destruct (String.eqb_spec (OpenAPIV3.in_ p0) (ParameterType_string type)) as [Hin|Hin].
      * split; [apply obj_assign_NoDup, IHnd|]. intros n p.
        rewrite (last_declared_here _ _ _ Hin), obj_get_assign.
        destruct (String.eqb_spec n (OpenAPIV3.name p0)) as [->|Hne].
        -- destruct (String.eqb_spec (OpenAPIV3.name p0) "__proto__") as [E|E].
           ++ rewrite E in *. rewrite Hproto.
              split; [discriminate | intros [H _]; congruence].
           ++ assert (Hset : match obj_get (OpenAPIV3.name p0) result with
                             | Some _ => Some p0
                             | None => Some p0
                             end = Some p0)
                by (destruct (obj_get (OpenAPIV3.name p0) result); reflexivity).
              rewrite Hset. split.
              ** intros [= <-]. split; [exact E | left; auto].
              ** intros [_ [[_ ->] | [Hne _]]]; congruence.
        -- rewrite IH. split.
           ++ intros [Hn Hl]. split; [exact Hn | right; auto].
           ++ intros [Hn [[? _] | [_ Hl]]]; [congruence | auto].
      * split; [exact IHnd|]. intros n p. rewrite IH.
        rewrite (last_declared_skip ps (OpenAPIV3.Param p0)); [reflexivity|].
        intros q [= <-] Hq. congruence.
Qed.

(** C3, as amended.  The map returned by [getParameterMap] has one entry
    per name, and its entry for a name other than [__proto__] is the last
    parameter of the operation's list that has this name among those whose
    [in] field is the requested location; a member of the list without [in]
    field contributes nothing; and there is no entry under the name
    [__proto__], whatever the list declares. *)
Theorem getParameterMap_spec (operation : OpenAPIV3.OperationObject)
    (type : ParameterType) :
  let parameters := default [] (OpenAPIV3.parameters operation) in
  let result := getParameterMap operation type in
  NoDup (Object_keys result) /\
  (forall n p, n <> "__proto__" ->
     (obj_get n result = Some p <-> last_declared parameters type n p)) /\
  obj_get "__proto__" result = None.
Proof.
  cbv zeta.
  assert (H : NoDup (Object_keys (getParameterMap operation type)) /\
              forall n p, obj_get n (getParameterMap operation type) = Some p <->
                n <> "__proto__" /\
                last_declared (default [] (OpenAPIV3.parameters operation)) type n p).
  { destruct operation as [[ps|]];
      [apply getParameterMap_list | apply (getParameterMap_list [] type)]. }
  destruct H as [Hnd H]. split; [exact Hnd|]. split.
  - intros n p Hn. rewrite H. tauto.
  - destruct (obj_get "__proto__" (getParameterMap operation type)) as [q|] eqn:E;
      [|reflexivity].
    apply H in E as [E _]. congruence.
Qed.

(** ** getParametersSchema *)

Lemma getParametersSchema_closed (parameters : object OpenAPIV3.ParameterObject) :
  getParametersSchema parameters =
  schema_object
    (map JString (map fst (List.filter is_required parameters)))
    (fold_left (fun ps e => obj_assign (fst e) (declared_schema (snd e)) ps) parameters []).
Proof.
  unfold getParametersSchema, Object_entries.
  match goal with |- fold_left ?f _ _ = _ => set (step := f) end.
  change (JObject _) with (schema_object [] []) at 1.
  change (map JString (map fst (List.filter is_required parameters)))
    with ([] ++ map JString (map fst (List.filter is_required parameters))).
  generalize (@nil json) as req, (@nil (string * json)) as props.
  induction parameters as [|[n p] es IH]; intros req props.
  - cbn. rewrite app_nil_r. reflexivity.
  - cbn [fold_left List.filter].
    assert (Hstep : step (schema_object req props) (n, p) =
      schema_object (req ++ if is_required (n, p) then [JString n] else [])
                    (obj_assign n (declared_schema p) props)).
    { unfold step, is_required, declared_schema. cbn.
      destruct (default false (OpenAPIV3.required p)); cbn.
      - reflexivity.
      - rewrite app_nil_r. reflexivity. }
    rewrite Hstep, IH. destruct (is_required (n, p)); cbn.
    + rewrite <- app_assoc. reflexivity.
    + rewrite app_nil_r. reflexivity.
Qed.

(** What a run of assignments [ps[k] = g(a)] over the entries of a map
    leaves under a name. *)
Lemma fold_obj_assign_get {A B : Type} (g : A -> B) (es : object A) (acc : object B) n :
  NoDup (Object_keys es) ->
  obj_get "__proto__" acc = None ->
  obj_get n (fold_left (fun ps e => obj_assign (fst e) (g (snd e)) ps) es acc) =
  if String.eqb n "__proto__" then None
  else match obj_get n es with
       | Some a => Some (g a)
       | None => obj_get n acc
       end.
Proof.
  revert acc. induction es as [|[k a] es IH]; intros acc Hnd Hacc.
  - cbn. destruct (String.eqb_spec n "__proto__") as [->|]; [exact Hacc | reflexivity].
  - inversion Hnd as [|? ? Hk Hnd']; subst. cbn.
    rewrite IH by (try assumption; apply obj_assign_proto, Hacc).
    destruct (String.eqb_spec n "__proto__") as [Hn|Hn]; [reflexivity|].
    destruct (String.eqb_spec n k) as [->|Hne].
    + assert (E : obj_get k es = None).
      { apply obj_get_None. intros H. apply Hk, list_elem_of_In, H. }
      rewrite E, obj_get_assign, String.eqb_refl.
      apply String.eqb_neq in Hn. rewrite Hn.
      destruct (obj_get k acc); reflexivity.
    + destruct (obj_get n es); [reflexivity|].
      rewrite obj_get_assign. apply String.eqb_neq in Hne. rewrite Hne. reflexivity.
Qed.

(** C4, as amended.  The generated schema has type ['object'] and
    [additionalProperties] [true]; its [properties] map every parameter
    name other than [__proto__] to the parameter's schema, or to [{}] when
    it has none, and have no entry under [__proto__]; its [required] list
    holds, in the order of the map, the names of the parameters whose
    [required] field is [true]. *)
Theorem getParametersSchema_spec (parameters : object OpenAPIV3.ParameterObject) :
  NoDup (Object_keys parameters) ->
  let generated := getParametersSchema parameters in
  json_get "type" generated = Some (JString "object") /\
  json_get "additionalProperties" generated = Some (JBool true) /\
  (exists properties,
      json_get "properties" generated = Some (JObject properties) /\
      (forall n, n <> "__proto__" ->
         obj_get n properties =
         (fun p => default (JObject []) (OpenAPIV3.schema p)) <$> obj_get n parameters) /\
      obj_get "__proto__" properties = None) /\
  json_get "required" generated =
    Some (JArray (map JString (map fst
      (List.filter (fun e => default false (OpenAPIV3.required (snd e))) parameters)))).
Proof.
  intros Hnd. cbv zeta. rewrite getParametersSchema_closed.
  split; [reflexivity|]. split; [reflexivity|]. split; [|reflexivity].
  eexists. split; [reflexivity|]. split.
  - intros n Hn.
    rewrite (fold_obj_assign_get declared_schema) by (try exact Hnd; reflexivity).
    apply String.eqb_neq in Hn. rewrite Hn.
    destruct (obj_get n parameters); reflexivity.
  - rewrite (fold_obj_assign_get declared_schema) by (try exact Hnd; reflexivity).
    reflexivity.
Qed.

(** C10. The generated schema always has the four members [type],
    [required], [properties] and [additionalProperties]: [required] is a
    list and [properties] a map, empty when nothing is declared, and the
    schema of the empty map is
    [{type: 'object', required: [], properties: {}, additionalProperties: true}]. *)
Theorem getParametersSchema_members :
  getParametersSchema [] =
    JObject [("type", JString "object");
             ("required", JArray []);
             ("properties", JObject []);
             ("additionalProperties", JBool true)] /\
  (forall parameters, exists required properties,
      getParametersSchema parameters =
        JObject [("type", JString "object");
                 ("required", JArray required);
                 ("properties", JObject properties);
                 ("additionalProperties", JBool true)]) /\
  (forall parameters,
      Forall (fun e => OpenAPIV3.required (snd e) <> Some true) parameters ->
      json_get "required" (getParametersSchema parameters) = Some (JArray [])).
Proof.
  split; [reflexivity|]. split.
  - intros parameters. rewrite getParametersSchema_closed. eexists _, _. reflexivity.
  - intros parameters H. rewrite getParametersSchema_closed. cbn. do 2 f_equal.
    induction H as [|[n p] es Hp _ IH]; [reflexivity|].
    cbn. unfold is_required at 1. cbn in *.
    destruct (OpenAPIV3.required p) as [[]|]; cbn; [congruence | exact IH | exact IH].
Qed.

(** ** JSON.stringify always has an outcome *)

Lemma stack_bound (stack : list loc) (n : nat) :
  NoDup stack -> Forall (fun l => l < n) stack -> length stack <= n.
Proof.
  intros Hnd Hlt.
  assert (H : length stack <= length (seq 0 n)); [|rewrite length_seq in H; exact H].
  apply NoDup_incl_length; [apply NoDup_ListNoDup, Hnd|].
  intros l Hl. apply in_seq. rewrite Forall_forall in Hlt.
  specialize (Hlt l (proj2 (list_elem_of_In _ _) Hl)). lia.
Qed.

Lemma SerializeJSONArray_fuel property elems :
  (forall v, property v <> OutOfFuel) ->
  SerializeJSONArray property elems <> OutOfFuel.
Proof.
  intros Hp. induction elems as [|v rest IH]; cbn; [discriminate|].
  specialize (Hp v). destruct (property v); [congruence | discriminate |].
  destruct (SerializeJSONArray property rest); [congruence | discriminate | discriminate].
Qed.

Lemma SerializeJSONObject_fuel property props :
  (forall v, property v <> OutOfFuel) ->
  SerializeJSONObject property props <> OutOfFuel.
Proof.
  intros Hp. induction props as [|[k v] rest IH]; cbn; [discriminate|].
  specialize (Hp v). destruct (property v); [congruence | discriminate |].
  destruct (SerializeJSONObject property rest); [congruence | discriminate | discriminate].
Qed.

Lemma SerializeJSONProperty_fuel fuel h stack v :
  NoDup stack -> Forall (fun l => l < length h) stack ->
  length h < fuel + length stack ->
  SerializeJSONProperty fuel h stack v <> OutOfFuel.
Proof.
  revert stack v. induction fuel as [|fuel IH]; intros stack v Hnd Hlt Hfuel.
  - pose proof (stack_bound _ _ Hnd Hlt). exfalso. lia.
  - destruct v as [| | | n | | | | |l]; cbn; try discriminate.
    { destruct n; discriminate. }
    case_bool_decide as Hin; [discriminate|].
    destruct (h !! l) as [c|] eqn:Hl; [|discriminate].
    assert (Hrec : forall v', SerializeJSONProperty fuel h (l :: stack) v' <> OutOfFuel).
    { intros v'. apply IH.
      - constructor; assumption.
      - constructor; [eapply lookup_lt_Some; eassumption | assumption].
      - cbn. lia. }
    destruct c as [props|elems].
    + pose proof (SerializeJSONObject_fuel _ props Hrec).
      destruct (SerializeJSONObject _ props); [congruence | discriminate | discriminate].
    + pose proof (SerializeJSONArray_fuel _ elems Hrec).
      destruct (SerializeJSONArray _ elems); [congruence | discriminate | discriminate].
Qed.

Lemma SerializeJSONArray_throws property elems e :
  (forall v e', property v = Throws e' -> e' = circular \/ e' = no_bigint) ->
  SerializeJSONArray property elems = Throws e -> e = circular \/ e = no_bigint.
Proof.
  intros Hp. induction elems as [|v rest IH]; cbn; [discriminate|].
  specialize (Hp v). destruct (property v) as [|e'|s]; [discriminate | |].
  - intros [= <-]. apply Hp. reflexivity.
  - destruct (SerializeJSONArray property rest); [discriminate | | discriminate].
    intros [= <-]. apply IH. reflexivity.
Qed.

Lemma SerializeJSONObject_throws property props e :
  (forall v e', property v = Throws e' -> e' = circular \/ e' = no_bigint) ->
  SerializeJSONObject property props = Throws e -> e = circular \/ e = no_bigint.
Proof.
  intros Hp. induction props as [|[k v] rest IH]; cbn; [discriminate|].
  specialize (Hp v). destruct (property v) as [|e'|s]; [discriminate | |].
  - intros [= <-]. apply Hp. reflexivity.
  - destruct (SerializeJSONObject property rest); [discriminate | | discriminate].
    intros [= <-]. apply IH. reflexivity.
Qed.

Lemma SerializeJSONProperty_throws fuel h stack v e :
  SerializeJSONProperty fuel h stack v = Throws e -> e = circular \/ e = no_bigint.
Proof.
  revert stack v e. induction fuel as [|fuel IH]; intros stack v e;
    destruct v as [| | | n | | | | |l]; cbn; try discriminate;
    try (destruct n; discriminate); try (intros [= <-]; right; reflexivity).
  case_bool_decide as Hin; [intros [= <-]; left; reflexivity|].
  destruct (h !! l) as [[props|elems]|]; [| |discriminate].
  - pose proof (SerializeJSONObject_throws _ props e (IH (l :: stack))) as H.
    destruct (SerializeJSONObject _ props); [discriminate | | discriminate].
    intros [= <-]. apply H. reflexivity.
  - pose proof (SerializeJSONArray_throws _ elems e (IH (l :: stack))) as H.
    destruct (SerializeJSONArray _ elems); [discriminate | | discriminate].
    intros [= <-]. apply H. reflexivity.
Qed.

(** The fuel that [JSON.stringify] starts with is never used up: it
    returns [undefined] or a text, or throws the error of a circular
    structure or of a BigInt, and it leaves the heap as it is. *)
Lemma JSON_stringify_outcome v h :
  exists r, JSON_stringify v h = (r, h) /\
    (r = inl circular \/ r = inl no_bigint \/ exists s, r = inr s).
Proof.
  unfold JSON_stringify.
  pose proof (SerializeJSONProperty_fuel (S (length h)) h [] v
                NoDup_nil_2 (Forall_nil_2 _) ltac:(cbn; lia)) as Hfuel.
  destruct (SerializeJSONProperty _ h [] v) as [|e|s] eqn:E; [congruence | |].
  - exists (inl e). split; [reflexivity|].
    destruct (SerializeJSONProperty_throws _ _ _ _ _ E) as [-> | ->]; auto.
  - exists (inr s). split; [reflexivity|]. right. right. eauto.
Qed.

(** ** JSON.parse builds its value in new cells *)

Lemma value_above_mono n m v : n <= m -> value_above m v -> value_above n v.
Proof. destruct v; cbn; lia. Qed.

Lemma cell_above_mono n m c : n <= m -> cell_above m c -> cell_above n c.
Proof.
  intros Hnm H. unfold cell_above in *. eapply Forall_impl; [exact H|].
  intros v. apply value_above_mono, Hnm.
Qed.

Lemma grows_above_refl h : grows_above h h.
Proof. exists []. rewrite app_nil_r. split; [reflexivity | constructor]. Qed.

Lemma grows_above_length h h' : grows_above h h' -> length h <= length h'.
Proof. intros (k & -> & _). rewrite length_app. lia. Qed.

Lemma grows_above_trans h1 h2 h3 :
  grows_above h1 h2 -> grows_above h2 h3 -> grows_above h1 h3.
Proof.
  intros (k1 & -> & H1) (k2 & -> & H2). exists (k1 ++ k2).
  rewrite app_assoc. split; [reflexivity|]. apply Forall_app. split; [exact H1|].
  eapply Forall_impl; [exact H2|]. intros c. apply cell_above_mono.
  rewrite length_app. lia.
Qed.

Lemma grows_above_alloc h h1 c :
  grows_above h h1 -> cell_above (length h) c -> grows_above h (h1 ++ [c]).
Proof.
  intros (k & -> & Hk) Hc. exists (k ++ [c]). rewrite app_assoc.
  split; [reflexivity|]. apply Forall_app. split; [exact Hk|].
  constructor; [exact Hc | constructor].
Qed.

Lemma grows_above_lookup h h' l :
  grows_above h h' -> l < length h -> h' !! l = h !! l.
Proof. intros (k & -> & _) Hl. apply lookup_app_l, Hl. Qed.

Lemma traverse_grows {A B : Type} (f : A -> heap -> B * heap)
    (Q : nat -> B -> Prop) (items : list A) :
  (forall n m y, n <= m -> Q m y -> Q n y) ->
  Forall (fun x => forall h y h1, f x h = (y, h1) ->
                     grows_above h h1 /\ Q (length h) y) items ->
  forall h ys h', traverse f items h = (ys, h') ->
    grows_above h h' /\ Forall (Q (length h)) ys.
Proof.
  intros Hmono Hf. induction Hf as [|x rest Hx _ IH]; intros h ys h'; cbn.
  - intros [= <- <-]. split; [apply grows_above_refl | constructor].
  - destruct (f x h) as [y h1] eqn:E1.
    destruct (traverse f rest h1) as [ys' h2] eqn:E2.
    intros [= <- <-].
    destruct (Hx _ _ _ E1) as [G1 Q1]. destruct (IH _ _ _ E2) as [G2 Q2].
    split; [eapply grows_above_trans; eassumption|].
    constructor; [exact Q1|].
    eapply Forall_impl; [exact Q2|]. intros y'. apply Hmono, grows_above_length, G1.
Qed.

Lemma obj_set_values {V : Type} (P : V -> Prop) k v (o : object V) :
  P v -> Forall P (map snd o) -> Forall P (map snd (obj_set k v o)).
Proof.
  intros Hv. induction o as [|[k0 v0] o IH]; cbn.
  - intros _. constructor; [exact Hv | constructor].
  - intros H. apply Forall_cons in H as [H0 H].
    destruct (String.eqb k k0); cbn; constructor; auto.
Qed.

Lemma Object_fromEntries_values {V : Type} (P : V -> Prop) (entries : object V) :
  Forall P (map snd entries) -> Forall P (map snd (Object_fromEntries entries)).
Proof.
  unfold Object_fromEntries.
  assert (H : forall acc, Forall P (map snd acc) -> Forall P (map snd entries) ->
    Forall P (map snd (fold_left (fun o e => obj_set (fst e) (snd e) o) entries acc))).
  { induction entries as [|[k v] es IH]; intros acc Hacc Hes; cbn; [exact Hacc|].
    cbn in Hes. apply Forall_cons in Hes as [Hv Hes].
    apply IH; [apply obj_set_values; assumption | exact Hes]. }
  apply H. constructor.
Qed.

Lemma parse_value_grows j :
  forall h v h', parse_value j h = (v, h') ->
    grows_above h h' /\ value_above (length h) v.
Proof.
  induction j as [ | b | q | s | items IH | members IH] using json_induction;
    intros h v h'; cbn.
  1-4: intros [= <- <-]; split; [apply grows_above_refl | exact I].
  - destruct (traverse parse_value items h) as [elems h1] eqn:E. intros [= <- <-].
    destruct (traverse_grows parse_value value_above items value_above_mono IH _ _ _ E)
      as [G Hel].
    split.
    + apply grows_above_alloc; [exact G | exact Hel].
    + cbn. apply grows_above_length, G.
  - match goal with |- context [traverse ?f members h] =>
      destruct (traverse f members h) as [props h1] eqn:E;
      pose proof (traverse_grows f (fun n p => value_above n (snd p)) members) as T
    end.
    intros [= <- <-].
    destruct (T (fun n m p => value_above_mono n m (snd p))) with (h := h) (ys := props) (h' := h1)
      as [G Hps]; [|exact E|].
    { eapply Forall_impl; [exact IH|]. intros [k j] Hj h0 [k' v'] h0'. cbn.
      destruct (parse_value j h0) as [v1 h2] eqn:E1. intros [= <- <- <-]. cbn.
      apply Hj, E1. }
    split.
    + apply grows_above_alloc; [exact G|].
      unfold cell_above. cbn. apply Object_fromEntries_values.
      apply Forall_fmap. exact Hps.
    + cbn. apply grows_above_length, G.
Qed.

Lemma reachable_above h h' v l :
  grows_above h h' -> value_above (length h) v -> reachable h' v l -> length h <= l.
Proof.
  intros (k & -> & Hk) Hv Hr. induction Hr as [l | l0 c v l Hc Hin _ IH].
  - exact Hv.
  - apply IH. cbn in Hv.
    rewrite lookup_app_r in Hc by exact Hv.
    rewrite Forall_forall in Hk.
    specialize (Hk c (list_elem_of_lookup_2 _ _ _ Hc)).
    unfold cell_above in Hk. rewrite Forall_forall in Hk.
    apply Hk, list_elem_of_In, Hin.
Qed.

(** ** Plain data *)

Lemma heap_plain_data h v : heap_plain h -> plain_data h v.
Proof.
  intros H l c _ Hc. unfold heap_plain in H. rewrite Forall_forall in H.
  eapply H, list_elem_of_lookup_2, Hc.
Qed.

(** ** cloneObject *)

(** The copy is made of new cells, and the heap before is a prefix of the
    heap after. *)
Lemma cloneObject_grows source h r h' :
  cloneObject source h = (r, h') ->
  grows_above h h' /\ forall v, r = inr v -> value_above (length h) v.
Proof.
  unfold cloneObject, bind.
  destruct (JSON_stringify_outcome source h) as (r0 & -> & _).
  destruct r0 as [e|[|j]]; cbn.
  - intros [= <- <-]. split; [apply grows_above_refl | discriminate].
  - intros [= <- <-]. split; [apply grows_above_refl | discriminate].
  - destruct (parse_value j h) as [v1 h1] eqn:E. intros [= <- <-].
    destruct (parse_value_grows _ _ _ _ E) as [G Hv].
    split; [exact G | intros v [= <-]; exact Hv].
Qed.

(** What [cloneObject] returns when the source has a JSON text. *)
Lemma cloneObject_text source h j :
  JSON_stringify source h = (inr (Text j), h) ->
  cloneObject source h = (inr (fst (parse_value j h)), snd (parse_value j h)).
Proof.
  intros H. unfold cloneObject, bind. rewrite H. cbn.
  destruct (parse_value j h); reflexivity.
Qed.

(** ** Array.prototype.push *)

Lemma Array_push_frame a items h r h' :
  Array_push a items h = (r, h') ->
  length h' = length h /\ forall l, l <> a -> h' !! l = h !! l.
Proof.
  unfold Array_push. destruct (h !! a) as [[props|elems]|]; intros [= <- <-].
  - auto.
  - split; [apply length_insert|]. intros l Hl. apply list_lookup_insert_ne. congruence.
  - auto.
Qed.

Lemma Array_push_array a items h elems :
  h !! a = Some (CArray elems) ->
  Array_push a items h = (inr tt, <[a := CArray (elems ++ items)]> h).
Proof. intros H. unfold Array_push. rewrite H. reflexivity. Qed.

(** ** matchSchema *)

Section MatchSchemaFacts.
Variable compile : Compiler.
Hypothesis compile_confined : confined_engine compile.

(** The run of [matchSchema], step by step. *)
Lemma matchSchema_run source schema errors ajvOptions h :
  let ajv := addFormats (new_Ajv (obj_set "coerceTypes" (JString "array")
                                    (default [] ajvOptions))) in
  matchSchema compile source schema errors ajvOptions h =
  match cloneObject source h with
  | (inl e, h1) => (inl e, h1)
  | (inr result, h1) =>
      match compile ajv schema with
      | inl e => (inl e, h1)
      | inr validate =>
          let '(reported, h2) := validate result h1 in
          match reported with
          | None => (inr result, h2)
          | Some errs =>
              match Array_push errors errs h2 with
              | (inl e, h3) => (inl e, h3)
              | (inr _, h3) => (inr result, h3)
              end
          end
      end
  end.
Proof.
  cbv zeta. unfold matchSchema, bind, lift, run_validate, ret.
  destruct (cloneObject source h) as [[e|result] h1]; [reflexivity|].
  destruct (compile _ schema) as [e|validate]; [reflexivity|].
  destruct (validate result h1) as [[errs|] h2]; [|reflexivity].
  destruct (Array_push errors errs h2) as [[e|[]] h3]; reflexivity.
Qed.

(** A confined validator leaves what was there before the copy. *)
Lemma validate_keeps_old ajv schema validate source h result h1 reported h2 :
  compile ajv schema = inr validate ->
  cloneObject source h = (inr result, h1) ->
  validate result h1 = (reported, h2) ->
  forall l, l < length h -> h2 !! l = h !! l.
Proof.
  intros Hc Hclone Hv l Hl.
  destruct (cloneObject_grows _ _ _ _ Hclone) as [G Habove].
  rewrite <- (grows_above_lookup _ _ _ G Hl).
  eapply compile_confined; [exact Hc | exact Hv | |].
  - pose proof (grows_above_length _ _ G). lia.
  - intros Hr. pose proof (reachable_above _ _ _ _ G (Habove _ eq_refl) Hr). lia.
Qed.

Lemma matchSchema_keeps source schema errors ajvOptions h r h' :
  matchSchema compile source schema errors ajvOptions h = (r, h') ->
  (forall l, l < length h -> l <> errors -> h' !! l = h !! l) /\
  (forall l, r = inr (VRef l) -> length h <= l).
Proof.
  rewrite matchSchema_run. cbv zeta.
  destruct (cloneObject source h) as [[e|result] h1] eqn:Hclone.
  { intros [= <- <-]. destruct (cloneObject_grows _ _ _ _ Hclone) as [G _].
    split; [|discriminate]. intros l Hl _. apply grows_above_lookup; assumption. }
  destruct (cloneObject_grows _ _ _ _ Hclone) as [G Habove].
  specialize (Habove _ eq_refl).
  assert (Hfresh : forall l, r = inr (VRef l) -> r = inr result -> length h <= l).
  { intros l -> [= <-]. exact Habove. }
  destruct (compile _ schema) as [e|validate] eqn:Hc.
  { intros [= <- <-]. split; [|discriminate].
    intros l Hl _. apply grows_above_lookup; assumption. }
  destruct (validate result h1) as [reported h2] eqn:Hv.
  pose proof (validate_keeps_old _ _ _ _ _ _ _ _ _ Hc Hclone Hv) as Hold.
  destruct reported as [errs|].
  - destruct (Array_push errors errs h2) as [[e|[]] h3] eqn:Hpush;
      destruct (Array_push_frame _ _ _ _ _ Hpush) as [_ Hframe];
      intros [= <- <-].
    + split; [|discriminate]. intros l Hl Hne. rewrite Hframe by exact Hne. auto.
    + split; [|intros l E; apply Hfresh; [exact E | reflexivity]].
      intros l Hl Hne. rewrite Hframe by exact Hne. auto.
  - intros [= <- <-]. split; [|intros l E; apply Hfresh; [exact E | reflexivity]].
    intros l Hl _. auto.
Qed.


End MatchSchemaFacts.

(** ** mapObject *)

Section MapObjectFacts.
Variable obj : loc.
Variable func : value -> string -> value -> M value.

(** The loop of [mapObject] returns exactly when the calls return, one
    after the other. *)
Lemma Array_mapM_returns (entries : list (string * value)) :
  forall h ws h',
    Array_mapM (fun e => w <- func (snd e) (fst e) (VRef obj) ;; ret (fst e, w))
      entries h = (inr ws, h') <->
    calls func obj entries h ws h'.
Proof.
  set (call := fun e : string * value =>
                 w <- func (snd e) (fst e) (VRef obj) ;; ret (fst e, w)).
  induction entries as [|[k v] rest IH]; intros h ws h'; cbn.
  - split.
    + intros [= <- <-]. constructor.
    + intros H. inversion H; subst. reflexivity.
  - unfold bind at 1. unfold call at 1. unfold bind at 1. cbn [fst snd].
    destruct (func v k (VRef obj) h) as [[e|w] h1] eqn:Hcall.
    + split; [discriminate|]. intros H. inversion H; subst. congruence.
    + unfold ret at 1. unfold bind at 1.
      destruct (Array_mapM call rest h1) as [[e|ws'] h2] eqn:Hrest.
      * split; [discriminate|]. intros H. inversion H as [|? ? ? ? w0 h0 ws0 ? Hc Hr]; subst.
        rewrite Hcall in Hc. injection Hc as <- <-.
        apply IH in Hr. congruence.
      * split.
        -- intros [= <- <-]. econstructor; [exact Hcall | apply IH, Hrest].
        -- intros H. inversion H as [|? ? ? ? w0 h0 ws0 ? Hc Hr]; subst.
           rewrite Hcall in Hc. injection Hc as <- <-.
           apply IH in Hr. rewrite Hrest in Hr. injection Hr as <- <-. reflexivity.
Qed.

Lemma calls_keys entries h ws h' :
  calls func obj entries h ws h' -> Object_keys ws = Object_keys entries.
Proof. induction 1; cbn; [reflexivity | f_equal; assumption]. Qed.

(** A cell that the calls leave is left by the loop. *)
Lemma Array_mapM_leaves (l : loc) (entries : list (string * value)) :
  (forall k v, In (k, v) entries -> leaves l (func v k (VRef obj))) ->
  forall h r h',
    Array_mapM (fun e => w <- func (snd e) (fst e) (VRef obj) ;; ret (fst e, w))
      entries h = (r, h') ->
    h' !! l = h !! l.
Proof.
  set (call := fun e : string * value =>
                 w <- func (snd e) (fst e) (VRef obj) ;; ret (fst e, w)).
  induction entries as [|[k v] rest IH]; intros Hleaves h r h'; cbn.
  - intros [= <- <-]. reflexivity.
  - unfold bind at 1. unfold call at 1. unfold bind at 1. cbn [fst snd].
    destruct (func v k (VRef obj) h) as [[e|w] h1] eqn:Hcall.
    + intros [= <- <-]. eapply (Hleaves k v); [left; reflexivity | exact Hcall].
    + unfold ret at 1. unfold bind at 1.
      destruct (Array_mapM call rest h1) as [[e|ws] h2] eqn:Hrest;
        intros [= <- <-];
        (rewrite (IH (fun k' v' Hin => Hleaves k' v' (or_intror Hin)) _ _ _ Hrest);
         eapply (Hleaves k v); [left; reflexivity | exact Hcall]).
Qed.

Lemma Array_mapM_total (entries : list (string * value)) :
  (forall k v, In (k, v) entries -> returns (func v k (VRef obj))) ->
  forall h, exists ws h',
    Array_mapM (fun e => w <- func (snd e) (fst e) (VRef obj) ;; ret (fst e, w))
      entries h = (inr ws, h').
Proof.
  set (call := fun e : string * value =>
                 w <- func (snd e) (fst e) (VRef obj) ;; ret (fst e, w)).
  induction entries as [|[k v] rest IH]; intros Hret h; cbn.
  - eexists _, _. reflexivity.
  - unfold bind at 1. unfold call at 1. unfold bind at 1. cbn [fst snd].
    destruct (Hret k v (or_introl eq_refl) h) as (w & h1 & ->).
    unfold ret at 1. unfold bind at 1.
    destruct (IH (fun k' v' Hin => Hret k' v' (or_intror Hin)) h1) as (ws & h2 & ->).
    eexists _, _. reflexivity.
Qed.

End MapObjectFacts.

(** ** The small engine is confined *)

Lemma simple_validate_confined coerce wanted : confined (simple_validate coerce wanted).
Proof.
  intros data h errs h' H l Hl Hnr. unfold simple_validate in H.
  assert (Happ : forall k, (h ++ k) !! l = h !! l) by (intros k; apply lookup_app_l, Hl).
  destruct data as [| | | | | | | |l0]; try (injection H as _ <-; apply Happ).
  destruct (h !! l0) as [[props|elems]|] eqn:E; try (injection H as _ <-; apply Happ).
  assert (Hne : l0 <> l) by (intros ->; apply Hnr; constructor).
  destruct (fold_left _ wanted _) as [props' bad].
  destruct bad as [|k bad]; injection H as _ <-.
  - apply list_lookup_insert_ne, Hne.
  - rewrite lookup_app_l by (rewrite length_insert; exact Hl).
    apply list_lookup_insert_ne, Hne.
Qed.

Lemma simple_compile_confined : confined_engine simple_compile.
Proof.
  intros ajv schema validate H. unfold simple_compile in H.
  destruct schema as [| | | | |members]; try discriminate.
  destruct (obj_get "properties" members) as [[| | | | |wanted]|];
    try discriminate; injection H as <-; apply simple_validate_confined.
Qed.

(** ** Examples *)





(** [matchSchema({count: "bad"}, schema, errors)] reports the failure in
    [errors] and returns the copy. *)
Example matchSchema_reports_failure :
  matchSchema simple_compile (VRef 0) count_schema 1 None
    [CObject [("count", VString "bad")]; CArray []] =
  (inr (VRef 2),
   [CObject [("count", VString "bad")];
    CArray [VRef 3];
    CObject [("count", VString "bad")];
    error_record "/count"]).
Proof. reflexivity. Qed.

(** A parameter named [__proto__] whose [in] is the requested location
    gets no entry. *)
Lemma getParameterMap_proto_dropped :
  OpenAPIV3.in_ proto_parameter = ParameterType_string query /\
  getParameterMap
    {| OpenAPIV3.parameters := Some [OpenAPIV3.Param proto_parameter] |} query
  = [].
Proof. split; reflexivity. Qed.

(** A map with the key [__proto__]: the name is required, and no schema is
    declared for it. *)
Lemma getParametersSchema_proto_undeclared :
  getParametersSchema [("__proto__", proto_parameter)] =
    JObject [("type", JString "object");
             ("required", JArray [JString "__proto__"]);
             ("properties", JObject []);
             ("additionalProperties", JBool true)].
Proof. reflexivity. Qed.

(** The schema of the specification's example map requires [id] only and
    declares [id] and [age]. *)
Lemma getParametersSchema_witness :
  NoDup (Object_keys example_parameters) /\
  json_get "required" (getParametersSchema example_parameters)
    = Some (JArray [JString "id"]) /\
  (exists properties,
     json_get "properties" (getParametersSchema example_parameters)
       = Some (JObject properties) /\
     obj_get "id" properties = Some (JObject [("type", JString "string")]) /\
     obj_get "age" properties = Some (JObject [("type", JString "integer")]) /\
     obj_get "__proto__" properties = None).
Proof.
  assert (Hnd : NoDup (Object_keys example_parameters)).
  { apply (bool_decide_unpack _). vm_compute. exact I. }
  destruct (getParametersSchema_spec example_parameters Hnd)
    as (_ & _ & (properties & Hprops & Hget & Hproto) & Hrequired).
  split; [exact Hnd|]. split; [exact Hrequired|].
  exists properties. split; [exact Hprops|].
  split; [exact (Hget "id" ltac:(discriminate))|].
  split; [exact (Hget "age" ltac:(discriminate)) | exact Hproto].
Defined.

(** No parameter of [{age: {required: false, ...}}] is required: the
    [required] member is there, and empty. *)
Lemma getParametersSchema_members_witness :
  Forall (fun e => OpenAPIV3.required (snd e) <> Some true) (tail example_parameters) /\
  json_get "required" (getParametersSchema (tail example_parameters)) = Some (JArray []).
Proof.
  assert (H : Forall (fun e => OpenAPIV3.required (snd e) <> Some true)
                (tail example_parameters)).
  { constructor; [discriminate | constructor]. }
  split; [exact H|].
  exact (proj2 (proj2 getParametersSchema_members) (tail example_parameters) H).
Defined.

(** [transform([1, 1, 1], (x, i = 0) => x + i)] is [[1, 2, 3]], where
    the function gives 1 for every element. *)
Lemma transform_passes_index :
  transform (JArray [JNumber 1; JNumber 1; JNumber 1]) plus_index
    = JArray [JNumber 1; JNumber 2; JNumber 3] /\
  JArray (Array_map (fun element => plus_index [element])
            [JNumber 1; JNumber 1; JNumber 1])
    = JArray [JNumber 1; JNumber 1; JNumber 1].
Proof. split; reflexivity. Qed.

(** [transform(5, x => x * 2)] is [10], and [transform([1, 2, 3], x => x * 2)]
    is [[2, 4, 6]]. *)
Lemma transform_witness :
  Array_isArray (JNumber 5) = false /\
  transform (JNumber 5) double = double [JNumber 5] /\
  transform (JArray [JNumber 1; JNumber 2; JNumber 3]) double
    = JArray [JNumber 2; JNumber 4; JNumber 6].
Proof.
  split; [reflexivity|]. split; [|reflexivity].
  exact (proj2 (proj2 (transform_spec (JNumber 5) double)) eq_refl).
Defined.

(** [inRange(0, 10)] holds of 0 and not of 10 or -1, and [inRange(5, 3)]
    holds of nothing. *)
Lemma inRange_witness :
  inRange (Finite 0) (Finite 10) (Finite 0) = true /\
  inRange (Finite 0) (Finite 10) (Finite 10) = false /\
  inRange (Finite 0) (Finite 10) (Finite (-1)) = false /\
  num_le (Finite 3) (Finite 5) /\
  inRange (Finite 5) (Finite 3) (Finite 4) = false.
Proof.
  assert (H : num_le (Finite 3) (Finite 5)) by (constructor; lra).
  repeat (split; [reflexivity|]). split; [exact H|].
  exact (proj2 (inRange_spec (Finite 5) (Finite 3) (Finite 4)) H).
Defined.



(** [formatArray([], f)] is the empty string and [formatArray([a, b], f, "-")]
    is ["-f(a)-f(b)"]. *)
Example formatArray_examples :
  formatArray [] (fun s : string => "<" +:+ s +:+ ">") None = "" /\
  formatArray ["a"; "b"] (fun s => "<" +:+ s +:+ ">") (Some "-") = "-<a>-<b>".
Proof. split; reflexivity. Qed.

(** Of two query parameters named [id] the later one is kept; a reference
    and a header parameter are not. *)
Example getParameterMap_example :
  let id1 := {| OpenAPIV3.name := "id"; OpenAPIV3.in_ := "query";
                OpenAPIV3.required := None; OpenAPIV3.schema := None |} in
  let id2 := {| OpenAPIV3.name := "id"; OpenAPIV3.in_ := "query";
                OpenAPIV3.required := Some true; OpenAPIV3.schema := None |} in
  let auth := {| OpenAPIV3.name := "authorization"; OpenAPIV3.in_ := "header";
                 OpenAPIV3.required := None; OpenAPIV3.schema := None |} in
  getParameterMap
    {| OpenAPIV3.parameters :=
         Some [OpenAPIV3.Param id1;
               OpenAPIV3.Reference {| OpenAPIV3.ref := "#/components/parameters/p" |};
               OpenAPIV3.Param auth;
               OpenAPIV3.Param id2] |}
    query
  = [("id", id2)].
Proof. reflexivity. Qed.

(** The copy of [{a: undefined, f: function, n: NaN, xs: [undefined, 1]}]
    is [{n: null, xs: [null, 1]}], and a structure that contains itself has
    no copy. *)
Example cloneObject_examples :
  cloneObject (VRef 1)
    [CArray [VUndefined; VNumber (Finite 1)];
     CObject [("a", VUndefined); ("f", VFunction 0); ("n", VNumber NaN);
              ("xs", VRef 0)]]
  = (inr (VRef 3),
     [CArray [VUndefined; VNumber (Finite 1)];
      CObject [("a", VUndefined); ("f", VFunction 0); ("n", VNumber NaN);
               ("xs", VRef 0)];
      CArray [VNull; VNumber (Finite 1)];
      CObject [("n", VNull); ("xs", VRef 2)]]) /\
  cloneObject (VRef 0) [CObject [("self", VRef 0)]]
  = (inl circular, [CObject [("self", VRef 0)]]).
Proof. split; reflexivity. Qed.

(** * Further properties *)

(** ** inRange *)

Lemma num_le_not_NaN x y : num_le x y -> x <> NaN /\ y <> NaN.
Proof. intros H. destruct H; split; congruence. Qed.

Lemma num_lt_not_NaN x y : num_lt x y -> x <> NaN /\ y <> NaN.
Proof. intros H. destruct H; split; congruence. Qed.

Lemma num_le_trans x y z : num_le x y -> num_le y z -> num_le x z.
Proof.
  intros Hxy Hyz. destruct Hxy; inversion Hyz; subst;
    try (constructor; congruence); try congruence.
  constructor. lra.
Qed.

Lemma num_lt_le_trans x y z : num_lt x y -> num_le y z -> num_lt x z.
Proof.
  intros Hxy Hyz. destruct Hxy; inversion Hyz; subst;
    try constructor; try congruence.
  lra.
Qed.

Lemma num_lt_or_le x y : x <> NaN -> y <> NaN -> num_lt x y \/ num_le y x.
Proof.
  intros Hx Hy. destruct x as [| |p|], y as [| |q|]; try congruence;
    try (left; constructor; fail); try (right; constructor; congruence).
  destruct (Qlt_le_dec p q); [left | right]; constructor; assumption.
Qed.

Lemma num_lt_le_absurd x y : num_lt x y -> num_le y x -> False.
Proof. intros Hlt Hle. destruct Hlt; inversion Hle; subst; try congruence. lra. Qed.

Lemma inRange_true min max value :
  inRange min max value = true <-> num_le min value /\ num_lt value max.
Proof. unfold inRange. rewrite andb_true_iff, js_ge_num_le, js_lt_num_lt. reflexivity. Qed.

(** X1. Two ranges that meet tile their union: for [min <= mid <= max],
    a value is in [inRange(min, max)] exactly when it is in
    [inRange(min, mid)] or in [inRange(mid, max)], and never in both. *)
Theorem inRange_tiles (min mid max value : number) :
  num_le min mid -> num_le mid max ->
  inRange min max value = inRange min mid value || inRange mid max value /\
  inRange min mid value && inRange mid max value = false.
Proof.
  intros Hlo Hhi. split.
  - apply eq_true_iff_eq. rewrite orb_true_iff, !inRange_true. split.
    + intros [Hle Hlt].
      destruct (num_lt_or_le value mid) as [H|H].
      * apply (num_le_not_NaN _ _ Hle).
      * apply (num_le_not_NaN _ _ Hlo).
      * left. auto.
      * right. auto.
    + intros [[Hle Hlt] | [Hle Hlt]].
      * split; [exact Hle | eapply num_lt_le_trans; eassumption].
      * split; [eapply num_le_trans; eassumption | exact Hlt].
  - destruct (inRange min mid value && inRange mid max value) eqn:E; [|reflexivity].
    apply andb_true_iff in E as [E1 E2].
    apply inRange_true in E1 as [_ Hlt]. apply inRange_true in E2 as [Hle _].
    destruct (num_lt_le_absurd _ _ Hlt Hle).
Qed.

Lemma inRange_tiles_witness :
  num_le (Finite 0) (Finite 5) /\ num_le (Finite 5) (Finite 10) /\
  inRange (Finite 0) (Finite 10) (Finite 5)
    = inRange (Finite 0) (Finite 5) (Finite 5) || inRange (Finite 5) (Finite 10) (Finite 5).
Proof.
  assert (H1 : num_le (Finite 0) (Finite 5)) by (constructor; lra).
  assert (H2 : num_le (Finite 5) (Finite 10)) by (constructor; lra).
  split; [exact H1|]. split; [exact H2|].
  exact (proj1 (inRange_tiles (Finite 0) (Finite 5) (Finite 10) (Finite 5) H1 H2)).
Defined.

(** X2. [NaN] is in no range and bounds no range: when [min], [max] or
    [value] is [NaN], [inRange(min, max)(value)] is [false]. *)
Theorem inRange_NaN (min max value : number) :
  min = NaN \/ max = NaN \/ value = NaN -> inRange min max value = false.
Proof.
  intros H. destruct (inRange min max value) eqn:E; [|reflexivity].
  apply inRange_true in E as [Hle Hlt].
  destruct (num_le_not_NaN _ _ Hle), (num_lt_not_NaN _ _ Hlt).
  destruct H as [?|[?|?]]; congruence.
Qed.

Lemma inRange_NaN_witness :
  (Finite 0 = NaN \/ Finite 1 = NaN \/ NaN = NaN) /\
  inRange (Finite 0) (Finite 1) NaN = false.
Proof.
  assert (H : Finite 0 = NaN \/ Finite 1 = NaN \/ NaN = NaN) by (right; right; reflexivity).
  split; [exact H|]. exact (inRange_NaN (Finite 0) (Finite 1) NaN H).
Defined.

(** ** formatArray *)

Lemma append_assoc (s t u : string) : (s +:+ t) +:+ u = s +:+ (t +:+ u).
Proof.
  induction s as [|c s IH]; [reflexivity|].
  change (String c ((s +:+ t) +:+ u) = String c (s +:+ (t +:+ u))).
  rewrite IH. reflexivity.
Qed.

(** X3. [formatArray] of a concatenation is the concatenation of the two
    [formatArray]s: a list can be formatted piece by piece. *)
Theorem formatArray_app (T : Type) (xs ys : list T) (formatter : T -> string)
    (prefix : option string) :
  formatArray (xs ++ ys) formatter prefix =
  formatArray xs formatter prefix +:+ formatArray ys formatter prefix.
Proof.
  unfold formatArray, Array_map. rewrite !Array_join_concat, map_app, fold_right_app.
  generalize (fold_right String.append "" (map (fun item => default default_prefix prefix +:+ formatter item) ys)).
  intros tail. induction (map _ xs) as [|s l IH]; [reflexivity|].
  cbn [fold_right]. rewrite IH, append_assoc. reflexivity.
Qed.

(** ** transform *)

(** X4. [transform] with the identity returns its argument.  Two
    [transform]s fuse into one, [transform(transform(v, f), g) =
    transform(v, (...args) => g(f(...args)))]: when [v] is an array and [g]
    reads its first argument only, and when neither [v] nor [f(v)] is an
    array; when [v] is no array and [f(v)] is one, the second [transform]
    maps [g] over the elements of [f(v)] instead. *)
Theorem transform_fuses (value : json) (f g : list json -> json) :
  ((forall x rest, f (x :: rest) = x) -> transform value f = value) /\
  (Array_isArray value = true ->
   (forall x rest, g (x :: rest) = g [x]) ->
   transform (transform value f) g = transform value (fun arguments => g [f arguments])) /\
  (Array_isArray value = false -> Array_isArray (f [value]) = false ->
   transform (transform value f) g = transform value (fun arguments => g [f arguments])) /\
  (Array_isArray value = false -> Array_isArray (f [value]) = true ->
   transform (transform value f) g = Array_prototype_map (f [value]) g).
Proof.
  split; [|split; [|split]].
  - intros Hid. destruct value; try apply Hid.
    unfold transform, Array_prototype_map. cbn. f_equal.
    rewrite (imap_ext _ (const id)) by (intros; apply Hid).
    rewrite imap_const. apply list_fmap_id.
  - intros H Hg. destruct value as [| | | |l|]; try discriminate.
    unfold transform, Array_prototype_map. cbn. f_equal.
    apply list_eq. intros i. rewrite !list_lookup_imap.
    destruct (l !! i); cbn; [f_equal; apply Hg | reflexivity].
  - intros E H. unfold transform at 2 3. rewrite E.
    unfold transform. rewrite H. reflexivity.
  - intros E H. unfold transform at 2. rewrite E.
    unfold transform. rewrite H. reflexivity.
Qed.

(** [transform(transform([1, 2], x => x * 2), x => x * 2)] is
    [transform([1, 2], x => (x * 2) * 2)]; and with [x => [x, x]] first on
    the number 5, the second [transform] doubles the two elements. *)
Lemma transform_fuses_witness :
  Array_isArray (JArray [JNumber 1; JNumber 2]) = true /\
  transform (transform (JArray [JNumber 1; JNumber 2]) double) double
    = transform (JArray [JNumber 1; JNumber 2]) (fun arguments => double [double arguments]) /\
  transform (transform (JNumber 5) twice) double = JArray [JNumber 10; JNumber 10].
Proof.
  split; [reflexivity|]. split; [|reflexivity].
  apply (proj1 (proj2 (transform_fuses (JArray [JNumber 1; JNumber 2]) double double)));
    [reflexivity|].
  intros x rest. destruct x; reflexivity.
Defined.

(** ** getParameterMap *)

Lemma ParameterType_string_inj t1 t2 :
  ParameterType_string t1 = ParameterType_string t2 -> t1 = t2.
Proof. destruct t1, t2; cbn; intros H; try reflexivity; discriminate. Qed.

(** X5. A parameter is filed under one location only: an entry of the map
    for one location is no entry of the map for another, and its key is its
    name. *)
Theorem getParameterMap_one_location (operation : OpenAPIV3.OperationObject)
    (type1 type2 : ParameterType) (n1 n2 : string) (p : OpenAPIV3.ParameterObject) :
  obj_get n1 (getParameterMap operation type1) = Some p ->
  obj_get n2 (getParameterMap operation type2) = Some p ->
  type1 = type2 /\ n1 = OpenAPIV3.name p /\ n2 = OpenAPIV3.name p.
Proof.
  destruct operation as [ps].
  assert (H : forall t n, obj_get n (getParameterMap {| OpenAPIV3.parameters := ps |} t) = Some p ->
            OpenAPIV3.name p = n /\ OpenAPIV3.in_ p = ParameterType_string t).
  { intros t n Hn. destruct ps as [l|].
    - apply (proj2 (getParameterMap_list l t)) in Hn
        as (_ & _ & _ & _ & Hname & Hin & _). auto.
    - discriminate. }
  intros H1 H2. apply H in H1 as [N1 I1]. apply H in H2 as [N2 I2].
  split; [apply ParameterType_string_inj; congruence | auto].
Qed.

Lemma getParameterMap_one_location_witness :
  obj_get "id" (getParameterMap example_operation query)
    = Some {| OpenAPIV3.name := "id"; OpenAPIV3.in_ := "query";
              OpenAPIV3.required := Some true; OpenAPIV3.schema := None |} /\
  query = query /\ "id" = "id" /\ "id" = "id".
Proof.
  split; [reflexivity|].
  apply (getParameterMap_one_location example_operation query query "id" "id"
           {| OpenAPIV3.name := "id"; OpenAPIV3.in_ := "query";
              OpenAPIV3.required := Some true; OpenAPIV3.schema := None |});
    reflexivity.
Defined.

(** X6. Parameters listed later override parameters listed earlier, list
    by list: the map of a concatenation [l1 ++ l2] has, under each name,
    the entry of the map of [l2] when there is one, and the entry of the
    map of [l1] otherwise. *)
Theorem getParameterMap_app (l1 l2 : list OpenAPIV3.ParameterEntry)
    (type : ParameterType) (n : string) :
  obj_get n (getParameterMap {| OpenAPIV3.parameters := Some (l1 ++ l2) |} type) =
  match obj_get n (getParameterMap {| OpenAPIV3.parameters := Some l2 |} type) with
  | Some p => Some p
  | None => obj_get n (getParameterMap {| OpenAPIV3.parameters := Some l1 |} type)
  end.
Proof.
  assert (Hproto : forall l,
            obj_get "__proto__" (getParameterMap {| OpenAPIV3.parameters := Some l |} type)
            = None).
  { intros l. destruct (obj_get "__proto__" _) as [q|] eqn:E; [|reflexivity].
    apply (proj2 (getParameterMap_list l type)) in E as [E _]. congruence. }
  induction l2 as [|x l2 IH] using rev_ind.
  - rewrite app_nil_r. reflexivity.
  - rewrite app_assoc, !getParameterMap_snoc. cbv zeta.
    destruct x as [r|p]; [exact IH|].
    destruct (String.eqb (OpenAPIV3.in_ p) (ParameterType_string type)); [|exact IH].
    rewrite !obj_get_assign.
    destruct (String.eqb_spec n (OpenAPIV3.name p)) as [->|Hne]; [|exact IH].
    destruct (String.eqb_spec (OpenAPIV3.name p) "__proto__") as [E|E].
    + rewrite E, !Hproto. reflexivity.
    + destruct (obj_get (OpenAPIV3.name p) (getParameterMap _ type)),
               (obj_get (OpenAPIV3.name p) (getParameterMap _ type)); reflexivity.
Qed.

(** ** getParametersSchema *)

Lemma fold_obj_assign_key {A B : Type} (g : A -> B) (es : object A) (acc : object B) n :
  n <> "__proto__" ->
  In n (Object_keys es) \/ is_Some (obj_get n acc) ->
  is_Some (obj_get n (fold_left (fun ps e => obj_assign (fst e) (g (snd e)) ps) es acc)).
Proof.
  intros Hn. revert acc. induction es as [|[k a] es IH]; intros acc; cbn.
  - intros [[]|H]. exact H.
  - intros H. apply IH. rewrite obj_get_assign.
    destruct (String.eqb_spec n k) as [<-|Hne].
    + right. apply String.eqb_neq in Hn. rewrite Hn.
      destruct (obj_get n acc); eauto.
    + destruct H as [[E|H]|H]; [congruence | left; exact H | right; exact H].
Qed.

Lemma fold_obj_assign_proto {A B : Type} (g : A -> B) (es : object A) (acc : object B) :
  obj_get "__proto__" acc = None ->
  obj_get "__proto__"
    (fold_left (fun ps e => obj_assign (fst e) (g (snd e)) ps) es acc) = None.
Proof.
  revert acc. induction es as [|[k a] es IH]; intros acc H; cbn; [exact H|].
  apply IH, obj_assign_proto, H.
Qed.

Lemma filter_keys_NoDup {A : Type} (f : string * A -> bool) (l : object A) :
  NoDup (Object_keys l) -> NoDup (Object_keys (List.filter f l)).
Proof.
  induction l as [|x l IH]; cbn; [auto|].
  intros H. apply NoDup_cons in H as [Hx Hl].
  destruct (f x); cbn; [|auto].
  apply NoDup_cons. split; [|auto].
  intros Hin. apply Hx. apply list_elem_of_In. apply list_elem_of_In in Hin.
  unfold Object_keys in *. apply in_map_iff in Hin as (y & Hy & Hin).
  apply filter_In in Hin as [Hin _]. rewrite <- Hy. apply in_map, Hin.
Qed.

Lemma required_names_In (n : string) (l : object OpenAPIV3.ParameterObject) :
  In (JString n) (map JString (map fst (List.filter is_required l))) <->
  exists p, In (n, p) l /\ OpenAPIV3.required p = Some true.
Proof.
  rewrite in_map_iff. split.
  - intros (m & [= ->] & Hin). apply in_map_iff in Hin as ([m p] & Hm & Hin).
    cbn in Hm. subst m. apply filter_In in Hin as [Hin Hreq].
    exists p. split; [exact Hin|]. unfold is_required in Hreq. cbn in Hreq.
    destruct (OpenAPIV3.required p) as [[]|]; cbn in Hreq; congruence.
  - intros (p & Hin & Hreq). exists n. split; [reflexivity|].
    apply in_map_iff. exists (n, p). split; [reflexivity|].
    apply filter_In. split; [exact Hin|]. unfold is_required. cbn. rewrite Hreq. reflexivity.
Qed.

(** X7. The generated schema is consistent, the name [__proto__] apart:
    every other name in its [required] list is a key of its [properties];
    [properties] never have the key [__proto__]; and no name is required
    twice. *)
Theorem getParametersSchema_required_declared
    (parameters : object OpenAPIV3.ParameterObject) :
  exists required properties,
    getParametersSchema parameters = schema_object required properties /\
    (forall r, In r required ->
       exists n, r = JString n /\
                 (n <> "__proto__" -> is_Some (obj_get n properties))) /\
    obj_get "__proto__" properties = None /\
    (NoDup (Object_keys parameters) -> NoDup required).
Proof.
  eexists _, _. split; [apply getParametersSchema_closed|]. split; [|split].
  - intros r Hr. apply in_map_iff in Hr as (n & <- & Hn). exists n. split; [reflexivity|].
    intros Hproto. apply (fold_obj_assign_key declared_schema); [exact Hproto|]. left.
    apply in_map_iff in Hn as (e & <- & He). apply filter_In in He as [He _].
    unfold Object_keys. apply in_map, He.
  - apply (fold_obj_assign_proto declared_schema). reflexivity.
  - intros Hnd. change (NoDup (JString <$> map fst (List.filter is_required parameters))).
    apply NoDup_fmap_2; [intros x y [= ->]; reflexivity|].
    apply (filter_keys_NoDup is_required), Hnd.
Qed.

(** X8. The schema generated from the parameter map of an operation
    declares, under a name other than [__proto__], the schema of the last
    parameter of the operation's list with this name and the requested
    location ([{}] when it has none), and requires the names other than
    [__proto__] whose last such parameter has [required] true; the name
    [__proto__] is neither declared nor required. *)
Theorem getParametersSchema_of_operation (operation : OpenAPIV3.OperationObject)
    (type : ParameterType) :
  let parameters := default [] (OpenAPIV3.parameters operation) in
  exists required properties,
    getParametersSchema (getParameterMap operation type)
      = schema_object required properties /\
    (forall n s, obj_get n properties = Some s <->
       n <> "__proto__" /\
       exists p, last_declared parameters type n p /\
                 s = default (JObject []) (OpenAPIV3.schema p)) /\
    (forall n, In (JString n) required <->
       n <> "__proto__" /\
       exists p, last_declared parameters type n p /\
                 OpenAPIV3.required p = Some true).
Proof.
  cbv zeta.
  assert (Hmap : NoDup (Object_keys (getParameterMap operation type)) /\
                 forall n p, obj_get n (getParameterMap operation type) = Some p <->
                   n <> "__proto__" /\
                   last_declared (default [] (OpenAPIV3.parameters operation)) type n p).
  { destruct operation as [[ps|]];
      [apply getParameterMap_list | apply (getParameterMap_list [] type)]. }
  destruct Hmap as [Hnd Hget].
  eexists _, _. split; [apply getParametersSchema_closed|]. split.
  - intros n s.
    rewrite (fold_obj_assign_get declared_schema) by (try exact Hnd; reflexivity).
    destruct (String.eqb_spec n "__proto__") as [Hn|Hn].
    { split; [discriminate | intros [H _]; congruence]. }
    destruct (obj_get n (getParameterMap operation type)) as [p|] eqn:E.
    + split.
      * intros [= <-]. split; [exact Hn|]. exists p. apply Hget in E as [_ E]. auto.
      * intros (_ & q & Hq & ->).
        assert (Eq : obj_get n (getParameterMap operation type) = Some q)
          by (apply Hget; auto).
        unfold declared_schema. congruence.
    + split; [discriminate|]. intros (_ & q & Hq & _).
      assert (Eq : obj_get n (getParameterMap operation type) = Some q)
        by (apply Hget; auto).
      congruence.
  - intros n. rewrite required_names_In. split.
    + intros (p & Hin & Hreq).
      apply (obj_get_In _ _ _ Hnd), Hget in Hin as [Hn Hl].
      split; [exact Hn|]. exists p. auto.
    + intros (Hn & p & Hl & Hreq). exists p. split; [|exact Hreq].
      apply obj_get_Some_In, Hget. auto.
Qed.

(** ** matchSchema *)

Lemma obj_set_set {V : Type} k (v v' : V) (o : object V) :
  obj_set k v (obj_set k v' o) = obj_set k v o.
Proof.
  induction o as [|[k0 v0] o IH]; cbn.
  - rewrite String.eqb_refl. reflexivity.
  - destruct (String.eqb k k0) eqn:E; cbn.
    + rewrite String.eqb_refl. reflexivity.
    + rewrite E, IH. reflexivity.
Qed.

(** X9. The caller cannot turn coercion off: whatever [coerceTypes] the
    options hold, [matchSchema] runs as it does without it, and the engine
    is only ever asked to compile for an instance that has the format
    validators and [coerceTypes: 'array']. *)
Theorem matchSchema_forces_coercion (compile : Compiler) (source : value)
    (schema : json) (errors : loc) (ajvOptions : option AjvOptions) :
  (forall v,
     matchSchema compile source schema errors
       (Some (obj_set "coerceTypes" v (default [] ajvOptions)))
     = matchSchema compile source schema errors ajvOptions) /\
  matchSchema compile source schema errors ajvOptions =
  matchSchema
    (fun ajv => compile {| options := obj_set "coerceTypes" (JString "array") (options ajv);
                           formats := true |})
    source schema errors ajvOptions.
Proof.
  split.
  - intros v. unfold matchSchema. cbn [default from_option id].
    rewrite obj_set_set. reflexivity.
  - unfold matchSchema, addFormats, new_Ajv. cbn [options].
    rewrite obj_set_set. reflexivity.
Qed.

(** ** cloneObject *)


(** *** The text of a heap with unique keys has unique keys *)

Lemma SerializeJSONArray_unique property elems js :
  (forall v j, property v = Returns (Text j) -> keys_unique j) ->
  SerializeJSONArray property elems = Returns js -> Forall keys_unique js.
Proof.
  intros Hp. revert js. induction elems as [|v rest IH]; cbn; intros js.
  - intros [= <-]. constructor.
  - destruct (property v) as [|e|s] eqn:Ev; try discriminate.
    destruct (SerializeJSONArray property rest) as [|e|js'] eqn:Er; try discriminate.
    intros [= <-]. constructor; [|apply IH; reflexivity].
    destruct s as [|j]; [constructor | eapply Hp, Ev].
Qed.

Lemma SerializeJSONObject_unique property props ms :
  (forall v j, property v = Returns (Text j) -> keys_unique j) ->
  SerializeJSONObject property props = Returns ms ->
  Object_keys ms `sublist_of` Object_keys props /\
  Forall (fun m => keys_unique (snd m)) ms.
Proof.
  intros Hp. revert ms. induction props as [|[k v] rest IH]; cbn; intros ms.
  - intros [= <-]. split; constructor.
  - destruct (property v) as [|e|s] eqn:Ev; try discriminate.
    destruct (SerializeJSONObject property rest) as [|e|ms'] eqn:Er; try discriminate.
    destruct (IH ms' eq_refl) as [Hsub Hall].
    intros [= <-]. destruct s as [|j]; cbn.
    + split; [apply sublist_cons, Hsub | exact Hall].
    + split; [apply sublist_skip, Hsub|].
      constructor; [eapply Hp, Ev | exact Hall].
Qed.

Lemma SerializeJSONProperty_unique fuel h stack v j :
  heap_unique h ->
  SerializeJSONProperty fuel h stack v = Returns (Text j) -> keys_unique j.
Proof.
  intros Hh. revert stack v j. induction fuel as [|fuel IH]; intros stack v j;
    destruct v as [| | |n| | | | |l]; cbn; try discriminate;
    try (intros [= <-]; constructor);
    try (destruct n; intros [= <-]; constructor).
  case_bool_decide; [discriminate|].
  destruct (h !! l) as [[props|elems]|] eqn:El; [| |discriminate].
  - destruct (SerializeJSONObject _ props) as [|e|ms] eqn:E; try discriminate.
    intros [= <-].
    destruct (SerializeJSONObject_unique _ _ _ (IH (l :: stack)) E) as [Hsub Hall].
    constructor; [|exact Hall].
    eapply sublist_NoDup; [|exact Hsub].
    unfold heap_unique in Hh. rewrite Forall_forall in Hh.
    apply (Hh (CObject props)), list_elem_of_lookup_2 with l, El.
  - destruct (SerializeJSONArray _ elems) as [|e|js] eqn:E; try discriminate.
    intros [= <-]. constructor.
    exact (SerializeJSONArray_unique _ _ _ (IH (l :: stack)) E).
Qed.

(** *** The text of a parsed text is that text *)

Lemma traverse_prefix {A B : Type} (f : A -> heap -> B * heap) (items : list A) :
  (forall x h y h1, f x h = (y, h1) -> exists k, h1 = h ++ k) ->
  forall h ys h', traverse f items h = (ys, h') -> exists k, h' = h ++ k.
Proof.
  intros Hf. induction items as [|x rest IH]; intros h ys h'; cbn.
  - intros [= <- <-]. exists []. rewrite app_nil_r. reflexivity.
  - destruct (f x h) as [y h1] eqn:E1. destruct (traverse f rest h1) as [ys' h2] eqn:E2.
    intros [= <- <-]. destruct (Hf _ _ _ _ E1) as [k1 ->].
    destruct (IH _ _ _ E2) as [k2 ->]. exists (k1 ++ k2). rewrite app_assoc. reflexivity.
Qed.

Lemma parse_value_prefix j h v h1 : parse_value j h = (v, h1) -> exists k, h1 = h ++ k.
Proof.
  intros E. destruct (parse_value_grows _ _ _ _ E) as [(k & -> & _) _]. eauto.
Qed.

Lemma stack_above_mono (stack : list loc) n m :
  n <= m -> Forall (fun l => m <= l) stack -> Forall (fun l => n <= l) stack.
Proof. intros Hnm H. eapply Forall_impl; [exact H|]. cbn. intros l Hl. lia. Qed.

Lemma reads_back_items items :
  Forall reads_back items -> Forall keys_unique items ->
  forall h elems h', traverse parse_value items h = (elems, h') ->
  forall k stack fuel,
    Forall (fun l => length h' <= l) stack ->
    SerializeJSONArray (SerializeJSONProperty fuel (h' ++ k) stack) elems = OutOfFuel \/
    SerializeJSONArray (SerializeJSONProperty fuel (h' ++ k) stack) elems = Returns items.
Proof.
  intros IH. induction IH as [|j rest Hj _ IHrest]; intros Hu h elems h'; cbn.
  - intros [= <- <-] k stack fuel _. right. reflexivity.
  - apply Forall_cons in Hu as [Huj Hur].
    destruct (parse_value j h) as [v ha] eqn:Ev.
    destruct (traverse parse_value rest ha) as [vs hb] eqn:Er.
    intros [= <- <-] k stack fuel Hstack.
    destruct (traverse_prefix parse_value rest parse_value_prefix _ _ _ Er) as [k' ->].
    cbn. rewrite <- app_assoc.
    destruct (Hj Huj _ _ _ Ev (k' ++ k) stack fuel) as [-> | ->].
    + eapply stack_above_mono; [|exact Hstack]. rewrite length_app. lia.
    + left. reflexivity.
    + rewrite app_assoc.
      destruct (IHrest Hur _ _ _ Er k stack fuel Hstack) as [-> | ->];
        [left | right]; reflexivity.
Qed.

Lemma reads_back_members members :
  Forall (fun m => reads_back (snd m)) members ->
  Forall (fun m => keys_unique (snd m)) members ->
  forall h props h',
    traverse (fun m h => let '(v, h1) := parse_value (snd m) h in ((fst m, v), h1))
      members h = (props, h') ->
    Object_keys props = Object_keys members /\
    forall k stack fuel,
      Forall (fun l => length h' <= l) stack ->
      SerializeJSONObject (SerializeJSONProperty fuel (h' ++ k) stack) props = OutOfFuel \/
      SerializeJSONObject (SerializeJSONProperty fuel (h' ++ k) stack) props = Returns members.
Proof.
  set (F := fun (m : string * json) (h : heap) =>
              let '(v, h1) := parse_value (snd m) h in ((fst m, v), h1)).
  assert (HF : forall x h y h1, F x h = (y, h1) -> exists k, h1 = h ++ k).
  { intros [n j] h y h1. unfold F. cbn. destruct (parse_value j h) as [v h2] eqn:E.
    intros [= <- <-]. eapply parse_value_prefix, E. }
  intros IH. induction IH as [|m rest Hj _ IHrest]; intros Hu h props h'; cbn.
  - intros [= <- <-]. split; [reflexivity|]. intros k stack fuel _. right. reflexivity.
  - destruct m as [n j]. apply Forall_cons in Hu as [Huj Hur]. cbn in Hj, Huj.
    unfold F at 1. cbn [fst snd].
    destruct (parse_value j h) as [v ha] eqn:Ev.
    destruct (traverse F rest ha) as [ps hb] eqn:Er.
    intros [= <- <-].
    destruct (IHrest Hur _ _ _ Er) as [Hkeys Hrest].
    split; [cbn; f_equal; exact Hkeys|].
    intros k stack fuel Hstack.
    destruct (traverse_prefix F rest HF _ _ _ Er) as [k' ->].
    cbn. rewrite <- app_assoc.
    destruct (Hj Huj _ _ _ Ev (k' ++ k) stack fuel) as [-> | ->].
    + eapply stack_above_mono; [|exact Hstack]. rewrite length_app. lia.
    + left. reflexivity.
    + rewrite app_assoc.
      destruct (Hrest k stack fuel Hstack) as [-> | ->]; [left | right]; reflexivity.
Qed.

Lemma parse_value_reads_back j : reads_back j.
Proof.
  induction j as [ | b | q | s | items IH | members IH] using json_induction;
    intros Hu h v h1; cbn.
  1-4: intros [= <- <-] k stack fuel _; right; destruct fuel; reflexivity.
  - destruct (traverse parse_value items h) as [elems h'] eqn:E.
    intros [= <- <-] k stack fuel Hstack. inversion Hu as [| | | |? Hitems|]; subst.
    destruct fuel as [|fuel]; [left; reflexivity|]. cbn.
    case_bool_decide as Hin.
    { rewrite Forall_forall in Hstack. apply Hstack in Hin.
      rewrite length_app in Hin. cbn in Hin. lia. }
    rewrite <- app_assoc, lookup_app_r by lia. rewrite Nat.sub_diag. cbn.
    destruct (reads_back_items items IH Hitems _ _ _ E (CArray elems :: k)
                (length h' :: stack) fuel) as [-> | ->].
    + constructor; [lia|]. eapply stack_above_mono; [|exact Hstack].
      rewrite length_app. lia.
    + left. reflexivity.
    + right. reflexivity.
  - match goal with |- context [traverse ?f members h] =>
      destruct (traverse f members h) as [props h'] eqn:E end.
    intros [= <- <-] k stack fuel Hstack.
    inversion Hu as [| | | | |? Hnd Hmembers]; subst.
    destruct (reads_back_members members IH Hmembers _ _ _ E) as [Hkeys Hrest].
    rewrite Object_fromEntries_NoDup by (rewrite Hkeys; exact Hnd).
    destruct fuel as [|fuel]; [left; reflexivity|]. cbn.
    case_bool_decide as Hin.
    { rewrite Forall_forall in Hstack. apply Hstack in Hin.
      rewrite length_app in Hin. cbn in Hin. lia. }
    rewrite <- app_assoc, lookup_app_r by lia. rewrite Nat.sub_diag. cbn.
    destruct (Hrest (CObject props :: k) (length h' :: stack) fuel) as [-> | ->].
    + constructor; [lia|]. eapply stack_above_mono; [|exact Hstack].
      rewrite length_app. lia.
    + left. reflexivity.
    + right. reflexivity.
Qed.

(** X11. The copy carries the JSON text of the source: in a heap whose
    objects have no key twice, when [cloneObject(source)] returns [copy],
    [JSON.stringify(copy)] is the text that [JSON.stringify(source)] was,
    and the copy can be copied in turn. *)
Theorem cloneObject_round_trip (source copy : value) (h h1 : heap) :
  heap_unique h ->
  cloneObject source h = (inr copy, h1) ->
  exists j,
    JSON_stringify source h = (inr (Text j), h) /\
    JSON_stringify copy h1 = (inr (Text j), h1) /\
    exists copy2 k, cloneObject copy h1 = (inr copy2, h1 ++ k).
Proof.
  intros Hh Hclone.
  destruct (JSON_stringify_outcome source h) as (r & Hr & _).
  assert (Hj : exists j, r = inr (Text j)).
  { unfold cloneObject, bind in Hclone. rewrite Hr in Hclone.
    destruct r as [e|[|j]]; [discriminate | discriminate | eauto]. }
  destruct Hj as [j ->]. exists j. split; [exact Hr|].
  rewrite (cloneObject_text _ _ _ Hr) in Hclone.
  destruct (parse_value j h) as [v h'] eqn:E. cbn in Hclone.
  injection Hclone as -> ->.
  assert (Huniq : keys_unique j).
  { unfold JSON_stringify in Hr.
    destruct (SerializeJSONProperty (S (length h)) h [] source) as [|e|s] eqn:Es;
      try discriminate.
    injection Hr as ->. eapply SerializeJSONProperty_unique; eassumption. }
  assert (Hback : JSON_stringify copy h1 = (inr (Text j), h1)).
  { unfold JSON_stringify.
    pose proof (SerializeJSONProperty_fuel (S (length h1)) h1 [] copy
                  NoDup_nil_2 (Forall_nil_2 _) ltac:(cbn; lia)) as Hfuel.
    destruct (parse_value_reads_back j Huniq _ _ _ E [] [] (S (length h1))
                (Forall_nil_2 _)) as [Ho | Ho];
      rewrite app_nil_r in Ho; [congruence|].
    rewrite Ho. reflexivity. }
  split; [exact Hback|].
  rewrite (cloneObject_text _ _ _ Hback).
  destruct (parse_value j h1) as [v2 h2] eqn:E2.
  destruct (parse_value_prefix _ _ _ _ E2) as [k ->].
  exists v2, k. reflexivity.
Qed.

Lemma mixed_heap_unique : heap_unique mixed_heap.
Proof.
  apply Forall_cons. split; [exact I|].
  apply Forall_cons. split; [|apply Forall_nil_2].
  apply (bool_decide_unpack _). vm_compute. reflexivity.
Qed.

Lemma cloneObject_round_trip_witness :
  heap_unique mixed_heap /\
  cloneObject (VRef 1) mixed_heap
    = (inr (VRef 3),
       mixed_heap ++ [CArray [VNull; VNumber (Finite 1)];
                      CObject [("n", VNull); ("xs", VRef 2)]]) /\
  exists j,
    JSON_stringify (VRef 1) mixed_heap = (inr (Text j), mixed_heap) /\
    JSON_stringify (VRef 3)
      (mixed_heap ++ [CArray [VNull; VNumber (Finite 1)];
                      CObject [("n", VNull); ("xs", VRef 2)]])
      = (inr (Text j),
         mixed_heap ++ [CArray [VNull; VNumber (Finite 1)];
                        CObject [("n", VNull); ("xs", VRef 2)]]) /\
    exists copy2 k,
      cloneObject (VRef 3)
        (mixed_heap ++ [CArray [VNull; VNumber (Finite 1)];
                        CObject [("n", VNull); ("xs", VRef 2)]])
      = (inr copy2,
         (mixed_heap ++ [CArray [VNull; VNumber (Finite 1)];
                         CObject [("n", VNull); ("xs", VRef 2)]]) ++ k).
Proof.
  split; [exact mixed_heap_unique|]. split; [reflexivity|].
  apply (cloneObject_round_trip (VRef 1) (VRef 3) mixed_heap
           (mixed_heap ++ [CArray [VNull; VNumber (Finite 1)];
                           CObject [("n", VNull); ("xs", VRef 2)]])).
  - exact mixed_heap_unique.
  - reflexivity.
Defined.

(** *** What the copy keeps *)

Lemma SerializeJSONProperty_Omitted fuel h stack v :
  Forall (fun l => is_Some (h !! l)) stack ->
  SerializeJSONProperty (S fuel) h stack v = Returns Omitted <-> absentb h v = true.
Proof.
  intros Hstack. destruct v as [| | |n| | | | |l]; cbn;
    try (split; [discriminate | discriminate]); try (split; reflexivity).
  - destruct n; split; discriminate.
  - case_bool_decide as Hin.
    + rewrite Forall_forall in Hstack. destruct (Hstack _ Hin) as [c ->].
      split; discriminate.
    + destruct (h !! l) as [[props|elems]|]; [| |split; reflexivity].
      * destruct (SerializeJSONObject _ props); split; discriminate.
      * destruct (SerializeJSONArray _ elems); split; discriminate.
Qed.

Lemma SerializeJSONArray_length property elems js :
  SerializeJSONArray property elems = Returns js ->
  length js = length elems /\
  forall i v, elems !! i = Some v -> property v = Returns Omitted -> js !! i = Some JNull.
Proof.
  revert js. induction elems as [|v rest IH]; cbn; intros js.
  - intros [= <-]. split; [reflexivity | intros i v; discriminate].
  - destruct (property v) as [|e|s] eqn:Ev; try discriminate.
    destruct (SerializeJSONArray property rest) as [|e|js'] eqn:Er; try discriminate.
    destruct (IH js' eq_refl) as [Hlen Hnull].
    intros [= <-]. split; [cbn; rewrite Hlen; reflexivity|].
    intros [|i] w; cbn.
    + intros [= <-] Hw. rewrite Hw in Ev. injection Ev as <-. reflexivity.
    + apply Hnull.
Qed.

Lemma SerializeJSONObject_keys (property : value -> outcome serialized)
    (absentv : value -> bool) props ms :
  (forall v, property v = Returns Omitted <-> absentv v = true) ->
  SerializeJSONObject property props = Returns ms ->
  Object_keys ms = Object_keys (List.filter (fun e => negb (absentv (snd e))) props).
Proof.
  intros Hp. revert ms. induction props as [|[k v] rest IH]; cbn; intros ms.
  - intros [= <-]. reflexivity.
  - destruct (property v) as [|e|s] eqn:Ev; try discriminate.
    destruct (SerializeJSONObject property rest) as [|e|ms'] eqn:Er; try discriminate.
    intros [= <-]. destruct s as [|j].
    + apply Hp in Ev. rewrite Ev. cbn. apply IH. reflexivity.
    + destruct (absentv v) eqn:Ea.
      * apply Hp in Ea. congruence.
      * cbn. f_equal. apply IH. reflexivity.
Qed.

Lemma traverse_parse_lookup items :
  forall h elems h', traverse parse_value items h = (elems, h') ->
    length elems = length items /\
    forall i, items !! i = Some JNull -> elems !! i = Some VNull.
Proof.
  induction items as [|j rest IH]; intros h elems h'; cbn.
  - intros [= <- <-]. split; [reflexivity | intros i; discriminate].
  - destruct (parse_value j h) as [v ha] eqn:Ev.
    destruct (traverse parse_value rest ha) as [vs hb] eqn:Er.
    intros [= <- <-]. destruct (IH _ _ _ Er) as [Hlen Hnull].
    split; [cbn; rewrite Hlen; reflexivity|].
    intros [|i]; cbn; [|apply Hnull].
    intros [= ->]. cbn in Ev. congruence.
Qed.

Lemma traverse_members_keys members :
  forall h props h',
    traverse (fun m h => let '(v, h1) := parse_value (snd m) h in ((fst m, v), h1))
      members h = (props, h') ->
    Object_keys props = Object_keys members.
Proof.
  induction members as [|[n j] rest IH]; intros h props h'; cbn.
  - intros [= <- <-]. reflexivity.
  - destruct (parse_value j h) as [v ha] eqn:Ev.
    match goal with |- context [traverse ?f rest ha] =>
      destruct (traverse f rest ha) as [ps hb] eqn:Er end.
    intros [= <- <-]. cbn. f_equal. eapply IH, Er.
Qed.

(** X12. What the copy keeps of an array or an object that is plain
    data.  The copy of an array is an array of
    the same length, with [null] where the array held [undefined], a
    function or a symbol.  The copy of an object is an object with the keys
    of the source, in their order, less the keys whose value is
    [undefined], a function or a symbol. *)
Theorem cloneObject_keeps (l : loc) (h : heap) (copy : value) (h' : heap) :
  plain_data h (VRef l) ->
  cloneObject (VRef l) h = (inr copy, h') ->
  (forall elems, h !! l = Some (CArray elems) ->
     exists l' elems',
       copy = VRef l' /\ h' !! l' = Some (CArray elems') /\
       length elems' = length elems /\
       forall i v, elems !! i = Some v -> absentb h v = true ->
                   elems' !! i = Some VNull) /\
  (forall props, h !! l = Some (CObject props) -> NoDup (Object_keys props) ->
     exists l' props',
       copy = VRef l' /\ h' !! l' = Some (CObject props') /\
       Object_keys props' =
         Object_keys (List.filter (fun e => negb (absentb h (snd e))) props)).
Proof.
  intros _ Hclone.
  assert (Hlen : forall c, h !! l = Some c -> exists n, length h = S n).
  { intros c Hc. apply lookup_lt_Some in Hc. destruct (length h); [lia | eauto]. }
  assert (Hom : forall c n, h !! l = Some c ->
            forall v, SerializeJSONProperty (S n) h [l] v = Returns Omitted <->
                      absentb h v = true).
  { intros c n Hc v. apply SerializeJSONProperty_Omitted.
    constructor; [eauto | constructor]. }
  unfold cloneObject, bind, JSON_stringify in Hclone. cbn in Hclone.
  rewrite bool_decide_eq_false_2 in Hclone by apply not_elem_of_nil.
  split.
  - intros elems Hl. destruct (Hlen _ Hl) as [n Hn]. rewrite Hl, Hn in Hclone.
    destruct (SerializeJSONArray _ elems) as [|e|js] eqn:Es; try discriminate.
    cbn in Hclone. destruct (traverse parse_value js h) as [elems' h1] eqn:Et.
    injection Hclone as <- <-.
    destruct (SerializeJSONArray_length _ _ _ Es) as [Hl1 Hnull].
    destruct (traverse_parse_lookup _ _ _ _ Et) as [Hl2 Hnull2].
    exists (length h1), elems'. split; [reflexivity|].
    split; [rewrite lookup_app_r by lia; rewrite Nat.sub_diag; reflexivity|].
    split; [congruence|].
    intros i v Hi Hv. apply Hnull2, (Hnull i v Hi). eapply Hom; eassumption.
  - intros props Hl Hnd. destruct (Hlen _ Hl) as [n Hn]. rewrite Hl, Hn in Hclone.
    destruct (SerializeJSONObject _ props) as [|e|ms] eqn:Es; try discriminate.
    cbn in Hclone.
    match type of Hclone with context [traverse ?f ms h] =>
      destruct (traverse f ms h) as [props0 h1] eqn:Et end.
    injection Hclone as <- <-.
    pose proof (SerializeJSONObject_keys _ (absentb h) _ _ (Hom _ n Hl) Es) as Hkeys.
    pose proof (traverse_members_keys _ _ _ _ Et) as Hkeys0.
    exists (length h1), (Object_fromEntries props0). split; [reflexivity|].
    split; [rewrite lookup_app_r by lia; rewrite Nat.sub_diag; reflexivity|].
    rewrite Object_fromEntries_NoDup; [congruence|].
    rewrite Hkeys0, Hkeys. apply filter_keys_NoDup, Hnd.
Qed.

Lemma mixed_heap_plain : heap_plain mixed_heap.
Proof. repeat (apply Forall_cons; split; [exact I|]). apply Forall_nil_2. Qed.

Lemma cloneObject_keeps_witness :
  plain_data mixed_heap (VRef 1) /\
  cloneObject (VRef 1) mixed_heap
    = (inr (VRef 3),
       mixed_heap ++ [CArray [VNull; VNumber (Finite 1)];
                      CObject [("n", VNull); ("xs", VRef 2)]]) /\
  exists l' props',
    VRef 3 = VRef l' /\
    (mixed_heap ++ [CArray [VNull; VNumber (Finite 1)];
                    CObject [("n", VNull); ("xs", VRef 2)]]) !! l'
      = Some (CObject props') /\
    Object_keys props' = ["n"; "xs"].
Proof.
  split; [exact (heap_plain_data _ _ mixed_heap_plain)|]. split; [reflexivity|].
  apply (proj2 (cloneObject_keeps 1 mixed_heap (VRef 3)
                  (mixed_heap ++ [CArray [VNull; VNumber (Finite 1)];
                                  CObject [("n", VNull); ("xs", VRef 2)]])
                  (heap_plain_data _ _ mixed_heap_plain) eq_refl)
           [("a", VUndefined); ("f", VFunction 0); ("n", VNumber NaN); ("xs", VRef 0)]).
  - reflexivity.
  - apply (bool_decide_unpack _). vm_compute. reflexivity.
Defined.

(** ** mapObject: callbacks without effects, callbacks that throw *)

Lemma Array_mapM_pure {A B : Type} (f : A -> M B) (g : A -> B) (items : list A) :
  (forall x, In x items -> forall h, f x h = (inr (g x), h)) ->
  forall h, Array_mapM f items h = (inr (map g items), h).
Proof.
  induction items as [|x rest IH]; intros Hf h; [reflexivity|].
  cbn. unfold bind at 1. rewrite (Hf x (or_introl eq_refl)).
  unfold bind at 1. rewrite IH by (intros y Hy; apply Hf; right; exact Hy).
  reflexivity.
Qed.

Lemma Array_mapM_error {A B : Type} (f : A -> M B) (items : list A) :
  forall h e h', Array_mapM f items h = (inl e, h') ->
    exists before x after h1,
      items = before ++ x :: after /\ f x h1 = (inl e, h').
Proof.
  induction items as [|x rest IH]; intros h e h'; cbn; [discriminate|].
  unfold bind at 1. destruct (f x h) as [[e1|y] ha] eqn:Ex.
  - intros [= <- <-]. exists [], x, rest, h. split; [reflexivity | exact Ex].
  - unfold bind at 1. destruct (Array_mapM f rest ha) as [[e2|ys] hb] eqn:Er.
    + intros [= <- <-]. destruct (IH _ _ _ Er) as (before & z & after & h1 & -> & Ez).
      exists (x :: before), z, after, h1. split; [reflexivity | exact Ez].
    + discriminate.
Qed.

Lemma mapped_keys (g : value -> string -> value) (entries : list (string * value)) :
  Object_keys (map (fun e => (fst e, g (snd e) (fst e))) entries) = Object_keys entries.
Proof. unfold Object_keys. rewrite map_map. reflexivity. Qed.

Lemma index_keys_NoDup (elems : list value) :
  NoDup (Object_keys (imap (fun i v => (pretty i, v)) elems)).
Proof.
  unfold Object_keys. change (@map) with (@fmap list _). rewrite fmap_imap.
  apply NoDup_alt. intros i j s Hi Hj.
  rewrite list_lookup_imap in Hi, Hj.
  destruct (elems !! i); [|discriminate]. destruct (elems !! j); [|discriminate].
  cbn in Hi, Hj. injection Hi as <-. injection Hj as Hj.
  apply (inj pretty) in Hj. congruence.
Qed.

(** X13. With a callback that has no effects and does not throw,
    [mapObject] changes nothing of the heap it was given and returns a new
    object that has, for each key of [obj] in the order of [obj], the
    value the callback gives for the value and the key.  For an object
    without keys the result is a new object without keys. *)
Theorem mapObject_pure (obj : loc) (func : value -> string -> value -> M value)
    (g : value -> string -> value) (h : heap) (props : list (string * value)) :
  h !! obj = Some (CObject props) ->
  NoDup (Object_keys props) ->
  (forall k v, In (k, v) props ->
     forall h0, func v k (VRef obj) h0 = (inr (g v k), h0)) ->
  mapObject obj func h =
    (inr (VRef (length h)),
     h ++ [CObject (map (fun e => (fst e, g (snd e) (fst e))) props)]).
Proof.
  intros Hobj Hnd Hpure. unfold mapObject.
  unfold bind at 1. unfold Object_entries_at. rewrite Hobj. unfold Object_entries.
  unfold bind at 1.
  rewrite (Array_mapM_pure _ (fun e => (fst e, g (snd e) (fst e)))).
  - unfold alloc. rewrite Object_fromEntries_NoDup; [reflexivity|].
    rewrite mapped_keys. exact Hnd.
  - intros [k v] Hin h0. unfold bind. cbn [fst snd]. rewrite (Hpure k v Hin). reflexivity.
Qed.

Lemma mapObject_pure_witness :
  ab_heap !! 0 = Some (CObject [("a", VNumber (Finite 1)); ("b", VNumber (Finite 2))]) /\
  mapObject 0 (fun v k o => ret v) ab_heap =
    (inr (VRef 1),
     ab_heap ++ [CObject [("a", VNumber (Finite 1)); ("b", VNumber (Finite 2))]]).
Proof.
  split; [reflexivity|].
  apply (mapObject_pure 0 (fun v k o => ret v) (fun v k => v) ab_heap
           [("a", VNumber (Finite 1)); ("b", VNumber (Finite 2))]).
  - reflexivity.
  - apply (bool_decide_unpack _). vm_compute. reflexivity.
  - intros k v _ h0. reflexivity.
Defined.



(** X15. [mapObject] on an array returns a plain object, not an array: its
    keys are the indices of the array in decimal, in order, and with a
    callback that has no effects each holds what the callback gives for
    the element and the index. *)
Theorem mapObject_array (obj : loc) (func : value -> string -> value -> M value)
    (g : value -> string -> value) (h : heap) (elems : list value) :
  h !! obj = Some (CArray elems) ->
  (forall i v, elems !! i = Some v ->
     forall h0, func v (pretty i) (VRef obj) h0 = (inr (g v (pretty i)), h0)) ->
  mapObject obj func h =
    (inr (VRef (length h)),
     h ++ [CObject (imap (fun i v => (pretty i, g v (pretty i))) elems)]).
Proof.
  intros Hobj Hpure. unfold mapObject.
  unfold bind at 1. unfold Object_entries_at. rewrite Hobj.
  unfold bind at 1.
  rewrite (Array_mapM_pure _ (fun e => (fst e, g (snd e) (fst e)))).
  - unfold alloc. rewrite Object_fromEntries_NoDup.
    + do 3 f_equal. change (@map) with (@fmap list _). rewrite fmap_imap. reflexivity.
    + rewrite mapped_keys. apply index_keys_NoDup.
  - intros [k v] Hin h0. apply list_elem_of_In, list_elem_of_lookup in Hin as [i Hi].
    rewrite list_lookup_imap in Hi.
    destruct (elems !! i) as [w|] eqn:Ew; [|discriminate]. injection Hi as <- <-.
    unfold bind. cbn [fst snd]. rewrite (Hpure i w Ew). reflexivity.
Qed.

Lemma mapObject_array_witness :
  mixed_heap !! 0 = Some (CArray [VUndefined; VNumber (Finite 1)]) /\
  mapObject 0 (fun v k o => ret (VString k)) mixed_heap =
    (inr (VRef 2),
     mixed_heap ++ [CObject [("0", VString "0"); ("1", VString "1")]]).
Proof.
  split; [reflexivity|].
  apply (mapObject_array 0 (fun v k o => ret (VString k)) (fun v k => VString k)
           mixed_heap [VUndefined; VNumber (Finite 1)]).
  - reflexivity.
  - intros i v _ h0. reflexivity.
Defined.

(** ** formatValidationError *)

Lemma Array_join_mentions (sep x : string) (items : list string) :
  In x items -> exists before after, Array_join sep items = before +:+ x +:+ after.
Proof.
  induction items as [|s rest IH]; [intros []|].
  intros [->|Hin].
  - destruct rest as [|s' rest'].
    + exists "", "". cbn. rewrite append_empty_r. reflexivity.
    + exists "", (sep +:+ Array_join sep (s' :: rest')). reflexivity.
  - destruct rest as [|s' rest']; [destruct Hin|].
    destruct (IH Hin) as (before & after & E).
    exists (s +:+ sep +:+ before), after.
    change (s +:+ sep +:+ Array_join sep (s' :: rest') =
            (s +:+ sep +:+ before) +:+ x +:+ after).
    rewrite E, !append_assoc. reflexivity.
Qed.

(** X16. The message names the path and every parameter of the error: it
    starts with [At '<dataPath>': ], and for each key of [params] the text
    [<key>: <JSON text of the value>] stands in what follows.  Without
    parameters the message ends after the colon and the space. *)
Theorem formatValidationError_mentions (JSON_text : json -> string)
    (error : ErrorObject) :
  (params error = [] ->
   formatValidationError JSON_text error = "At '" +:+ dataPath error +:+ "': ") /\
  (forall k v, In (k, v) (params error) ->
   exists before after,
     formatValidationError JSON_text error =
       "At '" +:+ dataPath error +:+ "': " +:+
       before +:+ (k +:+ ": " +:+ JSON_text v) +:+ after).
Proof.
  unfold formatValidationError, Object_entries, Array_map. split.
  - intros ->. cbn [map Array_join]. rewrite append_empty_r. reflexivity.
  - intros k v Hin.
    destruct (Array_join_mentions ", " (k +:+ ": " +:+ JSON_text v)
                (map (fun e => fst e +:+ ": " +:+ JSON_text (snd e)) (params error)))
      as (before & after & E).
    + apply in_map_iff. exists (k, v). split; [reflexivity | exact Hin].
    + exists before, after. rewrite E. reflexivity.
Qed.
